(** * Shallow embedding of the IRC command parser of [irc/commands.go]

    Go strings are byte strings; they are modelled by the Standard
    Library's [string], whose characters ([ascii]) are eight-bit bytes.
    Runes are [Z] (Go's [rune] is an [int32]).  A Go runtime panic
    (index out of range, [make] with a negative length) is the [Panic]
    outcome of the [result] type below. *)

From Stdlib Require Import String Ascii ZArith List Lia.
From stdpp Require Import base gmap strings list.



(* ------------------------------------------------------------------ *)
(** ** Outcomes of a Go call returning [(EditableCommand, error)] *)

(** The two error values of the package. *)
Inductive error : Type :=
| NotEnoughArgsError
| ErrParseCommand.

(** [Ok v] is a non-nil value with a nil error, [Err e] a nil value with
    error [e], and [Panic] a runtime panic. *)
Inductive result (A : Type) : Type :=
| Ok (v : A)
| Err (e : error)
| Panic.
Arguments Ok {A} v.
Arguments Err {A} e.
Arguments Panic {A}.

Definition bind {A B} (m : result A) (k : A -> result B) : result B :=
  match m with
  | Ok v => k v
  | Err e => Err e
  | Panic => Panic
  end.

Notation "'let!' x := m 'in' k" := (bind m (fun x => k))
  (at level 200, x name, m at level 100, k at level 200).

(** Reading [l[i]] of a Go slice. *)
Definition index_get {A} (l : list A) (i : nat) : result A :=
  match l !! i with
  | Some v => Ok v
  | None => Panic
  end.

(** Writing [l[i] = v] into a Go slice. *)
Definition index_set {A} (l : list A) (i : nat) (v : A) : result (list A) :=
  if Nat.ltb i (length l) then Ok (<[i := v]> l) else Panic.

(* ------------------------------------------------------------------ *)
(** ** The pieces of package [strings] the parser uses *)

Definition byte_of (c : ascii) : Z := Z.of_nat (nat_of_ascii c).

(** [strings.HasPrefix(s, ":")]. *)
Definition HasPrefixColon (s : string) : bool :=
  match s with
  | String c _ => Ascii.eqb c ":"
  | EmptyString => false
  end.

(** [strings.SplitN(s, " ", 2)]: the text before the first space and,
    when there is a space, the text after it. *)
Fixpoint SplitN2 (s : string) : string * option string :=
  match s with
  | EmptyString => (EmptyString, None)
  | String c rest =>
      if Ascii.eqb c " " then (EmptyString, Some rest)
      else let '(a, b) := SplitN2 rest in (String c a, b)
  end.

(** [strings.Split(s, string(sep))] for a one-byte separator. *)
Fixpoint Split (sep : ascii) (s : string) : list string :=
  match s with
  | EmptyString => [EmptyString]
  | String c rest =>
      let parts := Split sep rest in
      if Ascii.eqb c sep then EmptyString :: parts
      else match parts with
           | p :: ps => String c p :: ps
           | [] => [String c EmptyString]
           end
  end.

(** [strings.Join(elems, sep)] with the empty separator. *)
Definition JoinEmpty (elems : list string) : string :=
  fold_right String.append EmptyString elems.

Definition is_ascii_byte (c : ascii) : bool := Z.ltb (byte_of c) 128.

Definition upper_ascii (c : ascii) : ascii :=
  if andb (Z.leb 97 (byte_of c)) (Z.leb (byte_of c) 122)
  then ascii_of_nat (nat_of_ascii c - 32) else c.

Section Parser.

(** [unicode.ToUpper] mapped over a string holding a non-ASCII byte
    ([strings.Map]); the Unicode case tables are not part of the
    repository. *)
Variable unicodeToUpperMap : string -> string.

(** [strings.ToUpper]: the ASCII fast path, else the Unicode mapping. *)
Definition ToUpper (s : string) : string :=
  if forallb is_ascii_byte (list_ascii_of_string s)
  then string_of_list_ascii (map upper_ascii (list_ascii_of_string s))
  else unicodeToUpperMap s.

(** [IsChannel], the predicate that tells a channel name from a nickname
    (defined outside [commands.go]). *)
Variable IsChannel : string -> bool.

(* ------------------------------------------------------------------ *)
(** ** Tokenizer: [parseArg] and [parseLine] *)

Definition parseArg (line : string) : string * string :=
  if String.eqb line EmptyString then (EmptyString, EmptyString)
  else if HasPrefixColon line then (substring 1 (String.length line - 1) line, EmptyString)
  else match SplitN2 line with
       | (arg, Some rest) => (arg, rest)
       | (arg, None) => (arg, EmptyString)
       end.

(** The loop of [parseLine] that peels arguments with [parseArg] and
    stops at the first empty one, run with a step budget;
    every round that appends an argument consumes at least one byte, so
    [String.length line + 1] rounds always suffice. *)
Fixpoint parseArgs (fuel : nat) (line : string) : list string :=
  match fuel with
  | O => []
  | S fuel' =>
      let '(arg, rest) := parseArg line in
      if String.eqb arg EmptyString then []
      else arg :: parseArgs fuel' rest
  end.

(** [parseLine]: [command, args = strings.ToUpper(args[0]), args[1:]]
    panics when no argument was peeled. *)
Definition parseLine (line : string) : result (string * list string) :=
  let args := parseArgs (S (String.length line)) line in
  let! a0 := index_get args 0 in
  Ok (ToUpper a0, tl args).


(* ------------------------------------------------------------------ *)
(** ** Command values *)

(** [ModeChange{mode, add}]; [Mode] is a [rune]. *)
Record ModeChange : Type := mkModeChange { mode : Z; add : bool }.

(** The zero value of [ModeChange] that [make] fills a slice with. *)
Definition zeroModeChange : ModeChange := mkModeChange 0 false.

(** The command structs, without their [BaseCommand], whose [client] is
    still nil when a constructor returns. *)
Inductive Command : Type :=
| UnknownCommand (command : string) (args : list string)
| PingCommand (server server2 : string)
| PongCommand (server1 server2 : string)
| PassCommand (password : string)
| NickCommand (nickname : string)
| UserMsgCommand (user : string) (umode : Z) (unused realname : string)
| QuitCommand (message : string)
| JoinCommand (channels : gmap string string) (zero : bool)
| PartCommand (pchannels : list string) (pmessage : string)
| PrivMsgCommand (target pmsg : string)
| TopicCommand (channel topic : string)
| ModeCommand (mnickname : string) (changes : list ModeChange)
| ChannelModeCommand (mchannel : string)
| WhoisCommand (wtarget : string) (masks : list string)
| WhoCommand (mask : string) (operatorOnly : bool).

Definition NewUnknownCommand (command : string) (args : list string) : Command :=
  UnknownCommand command args.

Definition NewPingCommand (args : list string) : result Command :=
  if Nat.ltb (length args) 1 then Err NotEnoughArgsError else
  let! server := index_get args 0 in
  if Nat.ltb 1 (length args) then
    let! server2 := index_get args 1 in Ok (PingCommand server server2)
  else Ok (PingCommand server EmptyString).

Definition NewPongCommand (args : list string) : result Command :=
  if Nat.ltb (length args) 1 then Err NotEnoughArgsError else
  let! server1 := index_get args 0 in
  if Nat.ltb 1 (length args) then
    let! server2 := index_get args 1 in Ok (PongCommand server1 server2)
  else Ok (PongCommand server1 EmptyString).

Definition NewPassCommand (args : list string) : result Command :=
  if Nat.ltb (length args) 1 then Err NotEnoughArgsError else
  let! password := index_get args 0 in
  Ok (PassCommand password).

Definition NewNickCommand (args : list string) : result Command :=
  if negb (Nat.eqb (length args) 1) then Err NotEnoughArgsError else
  let! nickname := index_get args 0 in
  Ok (NickCommand nickname).

(** [strconv.ParseUint(s, 10, 8)] digit loop: a byte that is not a
    decimal digit is a syntax error, a value above [maxVal = 255] a range
    error; [None] stands for either error.  The [cutoff] test and the
    wrap-around test of the Go loop cannot fire below [maxVal]. *)
Fixpoint parseUint8Loop (n : Z) (s : list ascii) : option Z :=
  match s with
  | [] => Some n
  | c :: cs =>
      let b := byte_of c in
      if andb (Z.leb 48 b) (Z.leb b 57) then
        let n1 := (n * 10 + (b - 48))%Z in
        if Z.ltb 255 n1 then None else parseUint8Loop n1 cs
      else None
  end.

Definition ParseUint8 (s : string) : option Z :=
  if String.eqb s EmptyString then None
  else parseUint8Loop 0 (list_ascii_of_string s).

Definition NewUserMsgCommand (args : list string) : result Command :=
  if negb (Nat.eqb (length args) 4) then Err NotEnoughArgsError else
  let! user := index_get args 0 in
  let! unused := index_get args 2 in
  let! realname := index_get args 3 in
  let! a1 := index_get args 1 in
  match ParseUint8 a1 with
  | Some m => Ok (UserMsgCommand user m unused realname)
  | None => Ok (UserMsgCommand user 0 unused realname)
  end.

Definition NewQuitCommand (args : list string) : result Command :=
  if Nat.ltb 0 (length args) then
    let! message := index_get args 0 in Ok (QuitCommand message)
  else Ok (QuitCommand EmptyString).

(** [for i, key := range strings.Split(args[1], ",") { keys[i] = key }]. *)
Fixpoint assignKeys (keys : list string) (i : nat) (ks : list string)
    : result (list string) :=
  match ks with
  | [] => Ok keys
  | key :: ks' => let! keys' := index_set keys i key in assignKeys keys' (S i) ks'
  end.

(** [for i, channel := range channels { msg.channels[channel] = keys[i] }]. *)
Fixpoint fillChannels (m : gmap string string) (i : nat) (channels keys : list string)
    : result (gmap string string) :=
  match channels with
  | [] => Ok m
  | channel :: cs =>
      let! key := index_get keys i in fillChannels (<[channel := key]> m) (S i) cs keys
  end.

Definition NewJoinCommand (args : list string) : result Command :=
  if Nat.eqb (length args) 0 then Err NotEnoughArgsError else
  let! a0 := index_get args 0 in
  if String.eqb a0 "0" then Ok (JoinCommand ∅ true) else
  let channels := Split "," a0 in
  let keys := repeat EmptyString (length channels) in
  let! keys' :=
    (if Nat.ltb 1 (length args) then
       let! a1 := index_get args 1 in assignKeys keys 0 (Split "," a1)
     else Ok keys) in
  let! m := fillChannels ∅ 0 channels keys' in
  Ok (JoinCommand m false).

Definition NewPartCommand (args : list string) : result Command :=
  if Nat.ltb (length args) 1 then Err NotEnoughArgsError else
  let! a0 := index_get args 0 in
  if Nat.ltb 1 (length args) then
    let! message := index_get args 1 in Ok (PartCommand (Split "," a0) message)
  else Ok (PartCommand (Split "," a0) EmptyString).

Definition NewPrivMsgCommand (args : list string) : result Command :=
  if Nat.ltb (length args) 2 then Err NotEnoughArgsError else
  let! target := index_get args 0 in
  let! message := index_get args 1 in
  Ok (PrivMsgCommand target message).

Definition NewTopicCommand (args : list string) : result Command :=
  if Nat.ltb (length args) 1 then Err NotEnoughArgsError else
  let! channel := index_get args 0 in
  if Nat.ltb 1 (length args) then
    let! topic := index_get args 1 in Ok (TopicCommand channel topic)
  else Ok (TopicCommand channel EmptyString).

(* ------------------------------------------------------------------ *)
(** ** [unicode/utf8]: [DecodeRuneInString] and [RuneCountInString] *)

Definition RuneError : Z := 65533.
Definition as_ : Z := 240.   (* 0xF0: ASCII byte *)
Definition xx : Z := 241.    (* 0xF1: invalid first byte *)
Definition locb : Z := 128.  (* 0x80 *)
Definition hicb : Z := 191.  (* 0xBF *)
Definition maskx : Z := 63.
Definition mask2 : Z := 31.
Definition mask3 : Z := 15.
Definition mask4 : Z := 7.

(** The [first] table: for each first byte, the size of the sequence in
    the low nibble and the index of its accept range in the high one. *)
Definition first (b : Z) : Z :=
  if Z.ltb b 128 then as_
  else if Z.ltb b 194 then xx
  else if Z.ltb b 224 then 2       (* s1 *)
  else if Z.eqb b 224 then 19      (* s2 = 0x13 *)
  else if Z.ltb b 237 then 3       (* s3 *)
  else if Z.eqb b 237 then 35      (* s4 = 0x23 *)
  else if Z.ltb b 240 then 3       (* s3 *)
  else if Z.eqb b 240 then 52      (* s5 = 0x34 *)
  else if Z.ltb b 244 then 4       (* s6 *)
  else if Z.eqb b 244 then 68      (* s7 = 0x44 *)
  else xx.

(** [acceptRanges]: the bounds of the second byte. *)
Definition acceptRanges (i : Z) : Z * Z :=
  if Z.eqb i 0 then (locb, hicb)
  else if Z.eqb i 1 then (160%Z, hicb)
  else if Z.eqb i 2 then (locb, 159%Z)
  else if Z.eqb i 3 then (144%Z, hicb)
  else if Z.eqb i 4 then (locb, 143%Z)
  else (0%Z, 0%Z).

(** [s[i]] for an index known to be in range. *)
Definition byteAt (s : string) (i : nat) : Z :=
  match String.get i s with
  | Some c => byte_of c
  | None => 0
  end.

(** Conversion of a wider integer to [int32]. *)
Definition toInt32 (z : Z) : Z := (Z.modulo (z + 2 ^ 31) (2 ^ 32) - 2 ^ 31)%Z.

Definition DecodeRuneInString (s : string) : Z * nat :=
  let n := String.length s in
  match s with
  | EmptyString => (RuneError, 0)
  | String c0 _ =>
    let s0 := byte_of c0 in
    let x := first s0 in
    if Z.leb as_ x then
      let mask := Z.shiftr (toInt32 (Z.shiftl x 31)) 31 in
      (Z.lor (Z.land s0 (Z.lnot mask)) (Z.land RuneError mask), 1)
    else
      let sz := Z.to_nat (Z.land x 7) in
      let '(lo, hi) := acceptRanges (Z.shiftr x 4) in
      if Nat.ltb n sz then (RuneError, 1) else
      let s1 := byteAt s 1 in
      if orb (Z.ltb s1 lo) (Z.ltb hi s1) then (RuneError, 1)
      else if Nat.leb sz 2 then
        (Z.lor (Z.shiftl (Z.land s0 mask2) 6) (Z.land s1 maskx), 2)
      else
      let s2 := byteAt s 2 in
      if orb (Z.ltb s2 locb) (Z.ltb hicb s2) then (RuneError, 1)
      else if Nat.leb sz 3 then
        (Z.lor (Z.shiftl (Z.land s0 mask3) 12)
           (Z.lor (Z.shiftl (Z.land s1 maskx) 6) (Z.land s2 maskx)), 3)
      else
      let s3 := byteAt s 3 in
      if orb (Z.ltb s3 locb) (Z.ltb hicb s3) then (RuneError, 1)
      else
        (Z.lor (Z.shiftl (Z.land s0 mask4) 18)
           (Z.lor (Z.shiftl (Z.land s1 maskx) 12)
              (Z.lor (Z.shiftl (Z.land s2 maskx) 6) (Z.land s3 maskx))), 4)
  end.

(** [str[size:]]. *)
Definition dropBytes (size : nat) (str : string) : string :=
  substring size (String.length str - size) str.

(** The goroutine of [stringToRunes]: [for len(str) > 0 { rune, size :=
    utf8.DecodeRuneInString(str); runes <- rune; str = str[size:] }],
    with a step budget; [String.length str] steps suffice. *)
Fixpoint decodeLoop (fuel : nat) (str : string) : list Z :=
  match fuel with
  | O => []
  | S fuel' =>
      match str with
      | EmptyString => []
      | String _ _ =>
          let '(r, size) := DecodeRuneInString str in
          r :: decodeLoop fuel' (dropBytes size str)
      end
  end.

(** The runes the channel of [stringToRunes(str)] delivers before it is
    closed. *)
Definition stringToRunes (str : string) : list Z :=
  decodeLoop (String.length str) str.

(** [utf8.RuneCountInString]: it steps over [s] with the same [first] and
    [acceptRanges] tables, by the sizes [DecodeRuneInString] reports. *)
Fixpoint runeCountLoop (fuel : nat) (s : string) : nat :=
  match fuel with
  | O => O
  | S fuel' =>
      match s with
      | EmptyString => O
      | String _ _ => S (runeCountLoop fuel' (dropBytes (snd (DecodeRuneInString s)) s))
      end
  end.

Definition RuneCountInString (s : string) : nat := runeCountLoop (String.length s) s.

(* ------------------------------------------------------------------ *)
(** ** [MODE] *)

Definition plusRune : Z := 43.   (* '+' *)
Definition minusRune : Z := 45.  (* '-' *)

(** [for mode := range modeChange { cmd.changes[index] = ...; index += 1 }]. *)
Fixpoint emitModes (changes : list ModeChange) (index : nat) (add : bool) (modes : list Z)
    : result (list ModeChange * nat) :=
  match modes with
  | [] => Ok (changes, index)
  | m :: ms =>
      let! changes' := index_set changes index (mkModeChange m add) in
      emitModes changes' (S index) add ms
  end.

(** The loop over [args[1:]]; [sig := <-modeChange] receives the zero
    rune when the channel is closed at once (an empty token). *)
Fixpoint modeLoop (changes : list ModeChange) (index : nat) (flags : list string)
    : result (list ModeChange) :=
  match flags with
  | [] => Ok changes
  | arg :: rest =>
      let modeChange := stringToRunes arg in
      let sig := match modeChange with [] => 0%Z | r :: _ => r end in
      if andb (negb (Z.eqb sig plusRune)) (negb (Z.eqb sig minusRune))
      then Err ErrParseCommand
      else
        let add := Z.eqb sig plusRune in
        let! st := emitModes changes index add (tl modeChange) in
        modeLoop (fst st) (snd st) rest
  end.

(** [NewUserModeCommand]; [make] panics on a negative length. *)
Definition NewUserModeCommand (args : list string) : result Command :=
  let! nickname := index_get args 0 in
  let flags := drop 1 args in
  let len := (Z.of_nat (RuneCountInString (JoinEmpty flags)) - Z.of_nat (length flags))%Z in
  if Z.ltb len 0 then Panic else
  let! changes := modeLoop (repeat zeroModeChange (Z.to_nat len)) 0 flags in
  Ok (ModeCommand nickname changes).

Definition NewChannelModeCommand (args : list string) : result Command :=
  let! channel := index_get args 0 in
  Ok (ChannelModeCommand channel).

Definition NewModeCommand (args : list string) : result Command :=
  if Nat.eqb (length args) 0 then Err NotEnoughArgsError else
  let! a0 := index_get args 0 in
  if IsChannel a0 then NewChannelModeCommand args else NewUserModeCommand args.

Definition NewWhoisCommand (args : list string) : result Command :=
  if Nat.ltb (length args) 1 then Err NotEnoughArgsError else
  if Nat.ltb 1 (length args) then
    let! target := index_get args 0 in
    let! masks := index_get args 1 in
    Ok (WhoisCommand target (Split "," masks))
  else
    let! masks := index_get args 0 in
    Ok (WhoisCommand EmptyString (Split "," masks)).

Definition NewWhoCommand (args : list string) : result Command :=
  let! mask := (if Nat.ltb 0 (length args) then index_get args 0 else Ok EmptyString) in
  let! operatorOnly :=
    (if Nat.ltb 1 (length args) then
       let! a1 := index_get args 1 in Ok (String.eqb a1 "o")
     else Ok false) in
  Ok (WhoCommand mask operatorOnly).

(* ------------------------------------------------------------------ *)
(** ** Registry and [ParseCommand] *)

Definition parseCommandFuncs : list (string * (list string -> result Command)) :=
  [("JOIN", NewJoinCommand); ("MODE", NewModeCommand); ("NICK", NewNickCommand);
   ("PART", NewPartCommand); ("PASS", NewPassCommand); ("PING", NewPingCommand);
   ("PONG", NewPongCommand); ("PRIVMSG", NewPrivMsgCommand); ("QUIT", NewQuitCommand);
   ("TOPIC", NewTopicCommand); ("USER", NewUserMsgCommand); ("WHO", NewWhoCommand);
   ("WHOIS", NewWhoisCommand)].

(** [parseCommandFuncs[command]], nil when absent. *)
Fixpoint lookupFunc (command : string) (fs : list (string * (list string -> result Command)))
    : option (list string -> result Command) :=
  match fs with
  | [] => None
  | (v, f) :: fs' => if String.eqb v command then Some f else lookupFunc command fs'
  end.

(** The lines of [ParseCommand] after [parseLine]. *)
Definition dispatch (command : string) (args : list string) : result Command :=
  match lookupFunc command parseCommandFuncs with
  | None => Ok (NewUnknownCommand command args)
  | Some constructor => constructor args
  end.

Definition ParseCommand (line : string) : result Command :=
  let! p := parseLine line in
  dispatch (fst p) (snd p).

End Parser.

(* ------------------------------------------------------------------ *)
(** ** Vocabulary of the statements below *)

(** A string that is empty or whose first byte is an ASCII byte. *)
Definition starts_ascii (t : string) : Prop :=
  match t with
  | EmptyString => True
  | String d _ => (byte_of d < 128)%Z
  end.

(** A user-mode flag-token written as its leading sign ([true] for [+])
    followed by the rest of the token. *)
Definition signedToken (tok : bool * string) : string :=
  String (if fst tok then "+" else "-") (snd tok).

(** The changes a flag-token stands for: one per rune after the sign,
    each carrying the token's own sign. *)
Definition tokenChanges (tok : bool * string) : list ModeChange :=
  map (fun r => mkModeChange r (fst tok)) (stringToRunes (snd tok)).

(** A line of [n] spaces. *)
Fixpoint spaces (n : nat) : string :=
  match n with O => EmptyString | S k => String " " (spaces k) end.

(** A middle parameter: non-empty, no space, no leading colon. *)
Definition isMiddle (tok : string) : bool :=
  negb (String.eqb tok EmptyString) && negb (HasPrefixColon tok)
  && forallb (fun c => negb (Ascii.eqb c " ")) (list_ascii_of_string tok).

(** The line [tok1 tok2 ... tokn :t]. *)
Definition lineOf (toks : list string) (t : string) : string :=
  fold_right (fun tok acc => tok +:+ String " " acc) (String ":" t) toks.

(** The argument a trailing parameter [:t] contributes to the list. *)
Definition trailingArg (t : string) : list string :=
  if String.eqb t EmptyString then [] else [t].

(** The channel list of a [JOIN] ([strings.Split(args[0], ",")]). *)
Definition joinChannelList (args : list string) : list string :=
  match args with a0 :: _ => Split "," a0 | [] => [] end.

(** The key list of a [JOIN] ([strings.Split(args[1], ",")]), empty
    when no key argument is given. *)
Definition joinKeyList (args : list string) : list string :=
  match args with _ :: a1 :: _ => Split "," a1 | _ => [] end.

(** The line [MODE nick +a\xC3 \xA9]: the bytes C3 A9 (the UTF-8 encoding
    of U+00E9) split across two flag-tokens. *)
Definition modeLineSplitRune : string :=
  "MODE nick +a" +:+ String (ascii_of_nat 195) (String " " (String (ascii_of_nat 169) EmptyString)).

(** The line [tok1 tok2 ... tokn rest]: tokens each followed by one space,
    then the text [rest]. *)
Definition lineWithRest (toks : list string) (rest : string) : string :=
  fold_right (fun tok acc => tok +:+ String " " acc) rest toks.

(** A string of ASCII bytes only. *)
Definition asciiString (s : string) : bool := forallb is_ascii_byte (list_ascii_of_string s).


(** The fewest arguments each registered verb other than [NICK] and
    [USER] accepts. *)
Definition requiredArgs : list (string * nat) :=
  [("JOIN", 1); ("MODE", 1); ("PART", 1); ("PASS", 1); ("PING", 1); ("PONG", 1);
   ("PRIVMSG", 2); ("QUIT", 0); ("TOPIC", 1); ("WHO", 0); ("WHOIS", 1)].

(** The pieces of a list joined with a one-byte separator. *)
Fixpoint joinWith (sep : ascii) (l : list string) : string :=
  match l with
  | [] => EmptyString
  | [x] => x
  | x :: xs => x +:+ String sep (joinWith sep xs)
  end.

(** A string in which the byte [sep] does not occur. *)
Definition sepFree (sep : ascii) (p : string) : bool :=
  forallb (fun c => negb (Ascii.eqb c sep)) (list_ascii_of_string p).

(** A decimal digit [0] to [9]. *)
Definition isDigit (c : ascii) : bool := Z.leb 48 (byte_of c) && Z.leb (byte_of c) 57.

(** The value of a string of decimal digits, most significant first. *)
Definition digitsValue (s : string) : Z :=
  fold_left (fun n c => n * 10 + (byte_of c - 48))%Z (list_ascii_of_string s) 0%Z.

(** A non-empty decimal numeral whose value fits in eight bits. *)
Definition decimalUint8 (s : string) : bool :=
  negb (String.eqb s EmptyString) && forallb isDigit (list_ascii_of_string s)
  && Z.leb (digitsValue s) 255.

(** A flag-token whose first byte is [+] or [-]. *)
Definition startsWithSign (tok : string) : bool :=
  match tok with
  | String c _ => Ascii.eqb c "+" || Ascii.eqb c "-"
  | EmptyString => false
  end.

(** The changes an ASCII flag-token stands for: one per byte after its
    first, each with [add] set when the first byte is [+]. *)
Definition asciiTokenChanges (tok : string) : list ModeChange :=
  match tok with
  | String c r => map (fun b => mkModeChange (byte_of b) (Ascii.eqb c "+")) (list_ascii_of_string r)
  | EmptyString => []
  end.

(** The length of the shortest UTF-8 encoding of a code point. *)
Definition utf8Len (r : Z) : nat :=
  if Z.ltb r 128 then 1 else if Z.ltb r 2048 then 2 else if Z.ltb r 65536 then 3 else 4.

(** A Unicode scalar value: at most U+10FFFF and not a surrogate. *)
Definition validScalar (r : Z) : Prop :=
  (0 <= r <= 1114111)%Z /\ ~ (55296 <= r <= 57343)%Z.

(* ------------------------------------------------------------------ *)
(** ** Proof automation *)

(** Replace a closed subterm by its value. *)
Ltac eval_const t := let v := eval vm_compute in t in change t with v in *.

(** Compute the [first]-table quantities of a known first byte. *)
Ltac crunch_first :=
  repeat match goal with
  | |- context [Z.leb as_ ?x] => eval_const (Z.leb as_ x)
  | |- context [Z.to_nat (Z.land ?x 7)] => eval_const (Z.to_nat (Z.land x 7))
  | |- context [acceptRanges (Z.shiftr ?x 4)] => eval_const (acceptRanges (Z.shiftr x 4))
  end.

(** Close the arity cases of [NICK] and [USER]. *)
Ltac arity_crunch :=
  repeat split; intros; simpl in *; try discriminate; try lia; try reflexivity;
  try (eexists; reflexivity);
  try (match goal with H : ex _ |- _ => destruct H as [? ?]; discriminate end).

(** Unfold a constructor on argument lists of each length up to five. *)
Ltac args_cases args :=
  destruct args as [|? [|? [|? [|? [|? ?]]]]]; simpl; unfold index_get; simpl;
  try (match goal with |- context [ParseUint8 ?m] => destruct (ParseUint8 m) end);
  try discriminate.

(** Turn failed range tests into bounds. *)
Ltac orb_bounds :=
  repeat match goal with
  | H : orb _ _ = false |- _ => apply Bool.orb_false_iff in H as [? ?]
  | H : Z.ltb _ _ = false |- _ => apply Z.ltb_ge in H
  end.

(* ------------------------------------------------------------------ *)
(** ** Strings and UTF-8 decoding *)

Arguments DecodeRuneInString : simpl never.

Lemma append_cons (c : ascii) (s t : string) :
  String c s +:+ t = String c (s +:+ t).
Proof. reflexivity. Qed.

Lemma append_empty (t : string) : EmptyString +:+ t = t.
Proof. reflexivity. Qed.

Lemma append_nil_r (s : string) : s +:+ EmptyString = s.
Proof. induction s as [|c s IH]; rewrite ?append_cons; [done | by rewrite IH]. Qed.

Lemma length_append (s t : string) :
  String.length (s +:+ t) = String.length s + String.length t.
Proof. induction s as [|c s IH]; rewrite ?append_cons, ?append_empty; simpl; lia. Qed.

Lemma get_append_lt (s t : string) (i : nat) :
  i < String.length s -> String.get i (s +:+ t) = String.get i s.
Proof.
  revert i; induction s as [|c s IH]; intros [|i] Hi; rewrite ?append_cons; simpl in *; try lia; auto.
  apply IH; lia.
Qed.

Lemma get_append_len (s t : string) :
  String.get (String.length s) (s +:+ t) = String.get 0 t.
Proof. induction s as [|c s IH]; rewrite ?append_cons, ?append_empty; simpl; auto. Qed.

Lemma substring_all (s : string) : substring 0 (String.length s) s = s.
Proof. induction s as [|c s IH]; simpl; [done | by rewrite IH]. Qed.

Lemma dropBytes_append (k : nat) (s t : string) :
  k <= String.length s -> dropBytes k (s +:+ t) = dropBytes k s +:+ t.
Proof.
  unfold dropBytes. revert k; induction s as [|c s IH]; intros [|k] Hk;
    rewrite ?append_cons, ?append_empty; simpl in *; rewrite ?Nat.sub_0_r.
  - by rewrite substring_all.
  - lia.
  - by rewrite !substring_all, append_cons.
  - by rewrite <- IH by lia.
Qed.

Lemma length_dropBytes (k : nat) (s : string) :
  String.length (dropBytes k s) = String.length s - k.
Proof.
  unfold dropBytes. revert k; induction s as [|c s IH]; intros [|k]; simpl;
    rewrite ?Nat.sub_0_r, ?substring_all; auto.
Qed.

Lemma first_cases (b : Z) :
  first b = as_ \/ first b = xx \/ first b = 2%Z \/ first b = 19%Z \/ first b = 3%Z \/
  first b = 35%Z \/ first b = 52%Z \/ first b = 4%Z \/ first b = 68%Z.
Proof.
  unfold first.
  repeat match goal with |- context [if ?c then _ else _] => destruct c end; tauto.
Qed.

Lemma DecodeRune_size (c : ascii) (r : string) :
  1 <= snd (DecodeRuneInString (String c r)) <= String.length (String c r).
Proof.
  unfold DecodeRuneInString.
  destruct (first_cases (byte_of c)) as [H|[H|[H|[H|[H|[H|[H|[H|H]]]]]]]]; rewrite H;
  crunch_first; cbv zeta iota beta;
  repeat match goal with |- context [if ?c then _ else _] => destruct c eqn:? end;
  simpl in *; try lia;
  match goal with H : Nat.ltb _ _ = false |- _ => apply Nat.ltb_ge in H; simpl in H; lia end.
Qed.

Lemma DecodeRune_append (c : ascii) (r t : string) :
  starts_ascii t ->
  DecodeRuneInString (String c r +:+ t) = DecodeRuneInString (String c r).
Proof.
  destruct t as [|d t']; unfold starts_ascii; intros Hd.
  { by rewrite append_nil_r. }
  rewrite append_cons. unfold DecodeRuneInString.
  destruct (first_cases (byte_of c)) as [H|[H|[H|[H|[H|[H|[H|[H|H]]]]]]]]; rewrite H;
  crunch_first; cbv zeta iota beta; [done|done| | | | | | |];
  (destruct r as [|c1 [|c2 [|c3 r]]]; rewrite ?append_cons, ?append_empty;
   unfold byteAt, locb, hicb; simpl;
   repeat match goal with |- context [if ?b then _ else _] => destruct b eqn:? end;
   rewrite ?Bool.orb_true_iff, ?Bool.orb_false_iff, ?Z.ltb_lt, ?Z.ltb_ge in *;
   try done; try lia).
Qed.

Lemma decodeLoop_fuel (f1 f2 : nat) (s : string) :
  String.length s <= f1 -> String.length s <= f2 -> decodeLoop f1 s = decodeLoop f2 s.
Proof.
  revert f2 s; induction f1 as [|f1 IH]; intros [|f2] s H1 H2;
    destruct s as [|c r]; simpl in *; try lia; try done.
  pose proof (DecodeRune_size c r) as Hs.
  destruct (DecodeRuneInString (String c r)) as [rn size] eqn:E; simpl in *.
  f_equal. apply IH; rewrite length_dropBytes; simpl; lia.
Qed.

Lemma runeCountLoop_length (f : nat) (s : string) :
  runeCountLoop f s = length (decodeLoop f s).
Proof.
  revert s; induction f as [|f IH]; intros [|c r]; simpl; try done.
  destruct (DecodeRuneInString (String c r)) as [rn size] eqn:E; simpl.
  by rewrite IH.
Qed.

Lemma RuneCount_length (s : string) : RuneCountInString s = length (stringToRunes s).
Proof. apply runeCountLoop_length. Qed.

Lemma stringToRunes_append (s t : string) :
  starts_ascii t -> stringToRunes (s +:+ t) = stringToRunes s ++ stringToRunes t.
Proof.
  intros Ht. unfold stringToRunes.
  remember (String.length s) as n eqn:En.
  revert s En; induction n as [n IH] using lt_wf_ind; intros s En.
  destruct s as [|c r].
  { rewrite append_empty. simpl in En. subst n. done. }
  simpl in En; subst n.
  rewrite append_cons. simpl decodeLoop.
  rewrite <- (append_cons c r t), DecodeRune_append by done.
  pose proof (DecodeRune_size c r) as Hs.
  destruct (DecodeRuneInString (String c r)) as [rn size] eqn:E. simpl in Hs |- *.
  f_equal.
  rewrite dropBytes_append by (simpl; lia).
  pose proof (length_dropBytes size (String c r)) as Hd; simpl in Hd.
  rewrite (decodeLoop_fuel (String.length r) (String.length (dropBytes size (String c r))))
    by lia.
  rewrite <- (IH (String.length (dropBytes size (String c r)))) by lia.
  apply decodeLoop_fuel; rewrite !length_append; lia.
Qed.

Lemma DecodeRune_ascii (c : ascii) (r : string) :
  (byte_of c < 128)%Z -> DecodeRuneInString (String c r) = (byte_of c, 1).
Proof.
  intros Hc. unfold DecodeRuneInString.
  assert (first (byte_of c) = as_) as ->.
  { unfold first. destruct (Z.ltb_spec (byte_of c) 128); [done | lia]. }
  eval_const (Z.leb as_ as_). eval_const (Z.shiftr (toInt32 (Z.shiftl as_ 31)) 31).
  cbv zeta iota beta.
  rewrite Z.land_0_r, Z.lor_0_r. change (Z.lnot 0) with (-1)%Z. by rewrite Z.land_m1_r.
Qed.

Lemma stringToRunes_ascii (c : ascii) (body : string) :
  (byte_of c < 128)%Z -> stringToRunes (String c body) = byte_of c :: stringToRunes body.
Proof.
  intros Hc. unfold stringToRunes. simpl decodeLoop. rewrite DecodeRune_ascii by done.
  cbv zeta iota beta. f_equal.
  unfold dropBytes. simpl. by rewrite Nat.sub_0_r, substring_all.
Qed.

Lemma signedToken_runes (tok : bool * string) :
  stringToRunes (signedToken tok)
  = (if fst tok then plusRune else minusRune) :: stringToRunes (snd tok).
Proof.
  destruct tok as [[|] body]; unfold signedToken; simpl;
    rewrite stringToRunes_ascii; done.
Qed.

Lemma JoinEmpty_signed_runes (toks : list (bool * string)) :
  stringToRunes (JoinEmpty (map signedToken toks))
  = concat (map (fun tok : bool * string =>
                    (if fst tok then plusRune else minusRune) :: stringToRunes (snd tok)) toks).
Proof.
  induction toks as [|tok toks IH]; [done|].
  simpl. rewrite stringToRunes_append.
  - rewrite IH, signedToken_runes. done.
  - destruct toks as [|[[|] b] toks]; simpl; try done; unfold byte_of; simpl; lia.
Qed.

Lemma emitModes_fill (pre mid post : list ModeChange) (add : bool) (ms : list Z) :
  length mid = length ms ->
  emitModes (pre ++ mid ++ post) (length pre) add ms
  = Ok ((pre ++ map (fun r => mkModeChange r add) ms ++ post), length pre + length ms).
Proof.
  revert pre mid; induction ms as [|m ms IH]; intros pre [|x mid] Hl; simpl in *; try lia.
  - by rewrite Nat.add_0_r.
  - unfold index_set.
    match goal with |- context [Nat.ltb ?a ?b] =>
      destruct (Nat.ltb_spec a b) as [_|Hc]; [|rewrite length_app in Hc; simpl in Hc; lia] end.
    simpl bind. rewrite insert_app_r_alt by lia. rewrite Nat.sub_diag. simpl.
    specialize (IH (pre ++ [mkModeChange m add]) mid ltac:(lia)).
    rewrite length_app in IH; simpl in IH. rewrite Nat.add_1_r in IH.
    rewrite <- !app_assoc in IH. simpl in IH. rewrite IH. f_equal. f_equal. lia.
Qed.

Lemma modeLoop_fill (pre : list ModeChange) (toks : list (bool * string)) :
  modeLoop (pre ++ repeat zeroModeChange (length (concat (map tokenChanges toks))))
    (length pre) (map signedToken toks)
  = Ok (pre ++ concat (map tokenChanges toks)).
Proof.
  revert pre; induction toks as [|tok toks IH]; intros pre; simpl.
  - by rewrite !app_nil_r.
  - rewrite signedToken_runes.
    assert (Hsig : forall A (e : A) (k : bool -> A),
      (if andb (negb (Z.eqb (if fst tok then plusRune else minusRune) plusRune))
               (negb (Z.eqb (if fst tok then plusRune else minusRune) minusRune))
       then e else k (Z.eqb (if fst tok then plusRune else minusRune) plusRune)) = k (fst tok))
      by (intros; destruct (fst tok); done).
    cbv zeta. rewrite (Hsig _ (Err ErrParseCommand) (fun add =>
      let! st := emitModes (pre ++ repeat zeroModeChange
                   (length (tokenChanges tok ++ concat (map tokenChanges toks))))
                   (length pre) add (tl ((if fst tok then plusRune else minusRune) :: stringToRunes (snd tok)))
      in modeLoop (fst st) (snd st) (map signedToken toks))).
    simpl tl.
    rewrite length_app, repeat_app.
    rewrite emitModes_fill by (unfold tokenChanges; by rewrite length_map, repeat_length).
    simpl. rewrite app_assoc.
    replace (length pre + length (stringToRunes (snd tok)))
      with (length (pre ++ tokenChanges tok)) by (unfold tokenChanges; rewrite length_app, length_map; done).
    rewrite IH. by rewrite app_assoc.
Qed.

Lemma signed_runes_length (toks : list (bool * string)) :
  length (concat (map (fun tok : bool * string =>
                         (if fst tok then plusRune else minusRune) :: stringToRunes (snd tok)) toks))
  = length toks + length (concat (map tokenChanges toks)).
Proof.
  induction toks as [|tok toks IH]; [done|]. simpl.
  rewrite !length_app, IH. unfold tokenChanges. rewrite length_map. lia.
Qed.

(** C4: for flag-tokens that each start with a sign, the decoded changes
    are, token after token in argument order, one change per rune after
    the sign (runes decoded as UTF-8, not bytes), each carrying its own
    token's sign. *)
Theorem NewUserModeCommand_decodes (nickname : string) (toks : list (bool * string)) :
  NewUserModeCommand (nickname :: map signedToken toks)
  = Ok (ModeCommand nickname (concat (map tokenChanges toks))).
Proof.
  unfold NewUserModeCommand. simpl index_get. simpl bind. simpl drop.
  rewrite drop_0, RuneCount_length, JoinEmpty_signed_runes, signed_runes_length, length_map.
  rewrite Nat2Z.inj_add, Z.add_simpl_l.
  destruct (Z.ltb_spec (Z.of_nat (length (concat (map tokenChanges toks)))) 0); [lia|].
  rewrite Nat2Z.id.
  pose proof (modeLoop_fill [] toks) as Hfill. simpl in Hfill. rewrite Hfill. done.
Qed.

(** A two-byte rune after the sign is one flag. *)
Example mode_multibyte : NewUserModeCommand ["u"; "+é"] = Ok (ModeCommand "u" [mkModeChange 233 true]).
Proof. vm_compute. reflexivity. Qed.

Lemma parseArgs_spaces (f n : nat) : parseArgs (S f) (spaces n) = [].
Proof. destruct n; done. Qed.

(** C1 (failing input): a line that is empty or made of spaces peels no
    token, and [ParseCommand] panics on [args[0]] instead of returning a
    parse error. *)
Theorem ParseCommand_blank_panics (up : string -> string) (ch : string -> bool) (n : nat) :
  ParseCommand up ch (spaces n) = Panic.
Proof.
  unfold ParseCommand, parseLine. rewrite parseArgs_spaces. done.
Qed.

Lemma parseArgs_empty (f : nat) : parseArgs f EmptyString = [].
Proof. destruct f; done. Qed.

Lemma parseArgs_trailing (f : nat) (t : string) :
  parseArgs (S f) (String ":" t) = trailingArg t.
Proof.
  simpl. unfold parseArg. simpl. rewrite Nat.sub_0_r, substring_all.
  unfold trailingArg. destruct (String.eqb t EmptyString); [done|].
  by rewrite parseArgs_empty.
Qed.

Lemma SplitN2_middle (tok rest : string) :
  forallb (fun c => negb (Ascii.eqb c " ")) (list_ascii_of_string tok) = true ->
  SplitN2 (tok +:+ String " " rest) = (tok, Some rest).
Proof.
  induction tok as [|c tok IH]; intros H; [done|].
  simpl in H. apply andb_true_iff in H as [Hc H].
  rewrite append_cons. simpl. destruct (Ascii.eqb c " "); [done|].
  by rewrite IH.
Qed.

Lemma parseArg_middle (tok rest : string) :
  isMiddle tok = true -> parseArg (tok +:+ String " " rest) = (tok, rest).
Proof.
  unfold isMiddle. intros H. apply andb_true_iff in H as [H Hs].
  apply andb_true_iff in H as [He Hc].
  destruct tok as [|c tok]; [done|].
  unfold parseArg. rewrite SplitN2_middle by done.
  rewrite append_cons. simpl in Hc. simpl HasPrefixColon.
  destruct (Ascii.eqb c ":"); done.
Qed.

Lemma parseArgs_lineOf (toks : list string) (t : string) (f : nat) :
  Forall (fun tok => isMiddle tok = true) toks ->
  String.length (lineOf toks t) < f ->
  parseArgs f (lineOf toks t) = toks ++ trailingArg t.
Proof.
  revert f; induction toks as [|tok toks IH]; intros f Hm Hf;
    destruct f as [|f]; simpl in *; try lia.
  - apply parseArgs_trailing.
  - inversion Hm as [|? ? Htok Hrest]; subst.
    rewrite parseArg_middle by done.
    assert (String.eqb tok EmptyString = false) as ->.
    { unfold isMiddle in Htok. destruct tok; done. }
    f_equal. apply IH; [done|].
    rewrite length_append in Hf. simpl in Hf. lia.
Qed.

(** C9 (amended): when the text left after the verb and its middle
    arguments starts with [:], the rest of the line is the last argument
    verbatim, spaces included, if it is non-empty, and no argument
    otherwise; nothing follows it. *)
Theorem parseLine_trailing (up : string -> string) (verb : string) (mids : list string) (t : string) :
  Forall (fun tok => isMiddle tok = true) (verb :: mids) ->
  parseLine up (lineOf (verb :: mids) t) = Ok (ToUpper up verb, mids ++ trailingArg t).
Proof.
  intros Hm. unfold parseLine.
  rewrite parseArgs_lineOf by (done || lia). done.
Qed.

Lemma parseLine_trailing_witness :
  Forall (fun tok => isMiddle tok = true) ["PRIVMSG"; "#room"] /\
  parseLine (fun s => s) "PRIVMSG #room :hello there friend"
  = Ok ("PRIVMSG", ["#room"; "hello there friend"]).
Proof.
  split; [repeat constructor|].
  apply (parseLine_trailing (fun s => s) "PRIVMSG" ["#room"] "hello there friend").
  repeat constructor.
Defined.

(** C9 (counterexample): an empty trailing parameter is not an argument:
    [PRIVMSG #room :] gives the arguments [#room] only. *)
Lemma parseLine_empty_trailing :
  parseLine (fun s => s) "PRIVMSG #room :" <> Ok ("PRIVMSG", ["#room"; EmptyString]).
Proof. vm_compute. discriminate. Qed.

Lemma assignKeys_ok (keys : list string) (i : nat) (ks keys' : list string) :
  assignKeys keys i ks = Ok keys' ->
  length keys' = length keys /\
  forall j, keys' !! j = if andb (Nat.leb i j) (Nat.ltb j (i + length ks))
                         then ks !! (j - i) else keys !! j.
Proof.
  revert keys i; induction ks as [|k ks IH]; intros keys i H; simpl in H.
  - injection H as <-. split; [done|]. intros j. simpl length. rewrite Nat.add_0_r.
    destruct (Nat.leb_spec i j), (Nat.ltb_spec j i); simpl; try done; lia.
  - unfold index_set in H. destruct (Nat.ltb_spec i (length keys)) as [Hi|]; [|done].
    simpl in H. apply IH in H as [Hl Hj]. rewrite length_insert in Hl.
    split; [done|]. intros j. rewrite Hj. simpl length.
    destruct (Nat.eq_dec j i) as [->|Hne].
    + destruct (Nat.leb_spec (S i) i); [lia|]. simpl.
      rewrite Nat.leb_refl, Nat.sub_diag. simpl.
      destruct (Nat.ltb_spec i (i + S (length ks))); [|lia].
      by rewrite list_lookup_insert_eq by done.
    + rewrite list_lookup_insert_ne by done.
      destruct (Nat.leb_spec (S i) j), (Nat.ltb_spec j (S i + length ks)),
        (Nat.leb_spec i j), (Nat.ltb_spec j (i + S (length ks))); simpl; try lia; try done.
      replace (j - i) with (S (j - S i)) by lia. done.
Qed.

Lemma assignKeys_overflow (keys : list string) (i : nat) (ks : list string) :
  i <= length keys -> length keys < i + length ks -> assignKeys keys i ks = Panic.
Proof.
  revert keys i; induction ks as [|k ks IH]; intros keys i H0 H; simpl in *; [lia|].
  unfold index_set. destruct (Nat.ltb_spec i (length keys)); [|done].
  simpl. apply IH; rewrite length_insert; lia.
Qed.

Lemma fillChannels_notin (m m' : gmap string string) (i : nat) (cs keys : list string) (c : string) :
  fillChannels m i cs keys = Ok m' -> ~ In c cs -> m' !! c = m !! c.
Proof.
  revert m i; induction cs as [|c0 cs IH]; intros m i H Hin; simpl in *.
  - by injection H as <-.
  - unfold index_get in H. destruct (keys !! i) as [k|]; [|done]. simpl in H.
    rewrite (IH _ _ H) by tauto. rewrite lookup_insert_ne; [done|]. intros ->. tauto.
Qed.

Lemma fillChannels_last (m m' : gmap string string) (i : nat) (cs keys : list string)
    (j : nat) (c : string) :
  fillChannels m i cs keys = Ok m' ->
  cs !! j = Some c -> (forall j', j < j' -> cs !! j' <> Some c) ->
  m' !! c = keys !! (i + j).
Proof.
  revert m i j; induction cs as [|c0 cs IH]; intros m i j H Hj Hlast; simpl in *; [done|].
  unfold index_get in H. destruct (keys !! i) as [k|] eqn:Ek; [|done]. simpl in H.
  destruct j as [|j].
  - simpl in Hj. injection Hj as ->.
    rewrite (fillChannels_notin _ _ _ _ _ _ H).
    + rewrite lookup_insert_eq, Nat.add_0_r. done.
    + intros Hin. apply list_elem_of_In, list_elem_of_lookup in Hin as [n Hn].
      apply (Hlast (S n)); [lia|]. done.
  - rewrite (IH _ _ j H Hj). { f_equal. lia. }
    intros j' Hj'. apply (Hlast (S j')). lia.
Qed.

Lemma lookup_repeat_lt {A} (x : A) (n i : nat) : i < n -> repeat x n !! i = Some x.
Proof. revert i; induction n as [|n IH]; intros [|i] Hi; simpl; try lia; auto with lia. Qed.

(** C10: when a [JOIN] channel list names a channel more than once, the
    channel map holds the key paired with its last occurrence (the empty
    key when none is paired). *)
Theorem NewJoinCommand_duplicate_last (args : list string) (channels : gmap string string)
    (zero : bool) (c : string) (i j : nat) :
  NewJoinCommand args = Ok (JoinCommand channels zero) ->
  joinChannelList args !! i = Some c -> joinChannelList args !! j = Some c -> i < j ->
  (forall j', j < j' -> joinChannelList args !! j' <> Some c) ->
  channels !! c = Some (default EmptyString (joinKeyList args !! j)).
Proof.
  intros H Hi Hj Hij Hlast.
  destruct args as [|a0 rest]; [discriminate|].
  unfold NewJoinCommand in H. simpl in H, Hi, Hj, Hlast |- *.
  destruct (String.eqb a0 "0") eqn:E0.
  { apply String.eqb_eq in E0. subst a0.
    destruct j as [|[|j]]; [lia|discriminate|discriminate]. }
  assert (Hjl : j < length (Split "," a0)) by (apply lookup_lt_Some in Hj; done).
  destruct rest as [|a1 rest]; simpl in H.
  - destruct (fillChannels ∅ 0 (Split "," a0) (repeat EmptyString (length (Split "," a0))))
      as [m| |] eqn:EF; simpl in H; try discriminate.
    injection H as -> _.
    rewrite (fillChannels_last _ _ _ _ _ j c EF Hj Hlast). simpl.
    by rewrite lookup_repeat_lt.
  - destruct (assignKeys (repeat EmptyString (length (Split "," a0))) 0 (Split "," a1))
      as [keys| |] eqn:EK; simpl in H; try discriminate.
    destruct (fillChannels ∅ 0 (Split "," a0) keys) as [m| |] eqn:EF; simpl in H;
      try discriminate.
    injection H as -> _.
    rewrite (fillChannels_last _ _ _ _ _ j c EF Hj Hlast). simpl.
    apply assignKeys_ok in EK as [_ EK]. rewrite EK. simpl. rewrite Nat.sub_0_r.
    destruct (Nat.ltb_spec j (length (Split "," a1))) as [Hlt|Hge]; simpl.
    + apply lookup_lt_is_Some_2 in Hlt as [k Hk]. by rewrite Hk.
    + rewrite lookup_repeat_lt by done. rewrite lookup_ge_None_2 by lia. done.
Qed.

Lemma NewJoinCommand_duplicate_last_witness :
  NewJoinCommand ["#a,#b,#a"; "k1,k2,k3"]
    = Ok (JoinCommand (<["#a" := "k3"]> (<["#b" := "k2"]> ∅)) false) /\
  (<["#a" := "k3"]> (<["#b" := "k2"]> ∅) : gmap string string) !! "#a" = Some "k3".
Proof.
  assert (H : NewJoinCommand ["#a,#b,#a"; "k1,k2,k3"]
              = Ok (JoinCommand (<["#a" := "k3"]> (<["#b" := "k2"]> ∅)) false))
    by (vm_compute; reflexivity).
  split; [exact H|].
  apply (NewJoinCommand_duplicate_last _ _ _ "#a" 0 2 H); try reflexivity; try lia.
  intros j' Hj'. destruct j' as [|[|[|j']]]; try lia; discriminate.
Defined.

(** C2 (failing input): when a [JOIN] gives more keys than channels,
    [keys[i] = key] indexes past the channel count and the constructor
    panics instead of ignoring the extra keys. *)
Theorem NewJoinCommand_excess_keys_panic (a0 a1 : string) (rest : list string) :
  a0 <> "0" -> length (Split "," a0) < length (Split "," a1) ->
  NewJoinCommand (a0 :: a1 :: rest) = Panic.
Proof.
  intros H0 Hlt. unfold NewJoinCommand. simpl.
  destruct (String.eqb_spec a0 "0"); [done|].
  rewrite assignKeys_overflow; [done|lia|rewrite repeat_length; lia].
Qed.

Lemma NewJoinCommand_excess_keys_panic_witness :
  "#a" <> "0" /\ NewJoinCommand ["#a"; "k1,k2"] = Panic.
Proof.
  split; [discriminate|].
  apply NewJoinCommand_excess_keys_panic; [discriminate | simpl; lia].
Defined.

(** C6: [NICK] needs exactly one token and [USER] exactly four; any other
    count is [NotEnoughArgsError] and the exact count builds a value. *)
Theorem Nick_User_exact_arity (args : list string) :
  (NewNickCommand args = Err NotEnoughArgsError <-> length args <> 1) /\
  ((exists c, NewNickCommand args = Ok c) <-> length args = 1) /\
  (NewUserMsgCommand args = Err NotEnoughArgsError <-> length args <> 4) /\
  ((exists c, NewUserMsgCommand args = Ok c) <-> length args = 4).
Proof.
  unfold NewNickCommand, NewUserMsgCommand.
  destruct (Nat.eqb_spec (length args) 1) as [H1|H1], (Nat.eqb_spec (length args) 4) as [H4|H4];
    try lia; simpl.
  - destruct args as [|a [|b args]]; simpl in H1; try lia.
    unfold index_get. simpl. arity_crunch.
  - destruct args as [|a [|b [|c [|d [|e args]]]]]; simpl in H4; try lia.
    unfold index_get. simpl. destruct (ParseUint8 b); arity_crunch.
  - arity_crunch.
Qed.

Lemma lookupFunc_absent (command : string) (fs : list (string * (list string -> result Command))) :
  ~ In command (map fst fs) -> lookupFunc command fs = None.
Proof.
  induction fs as [|[v f] fs IH]; intros Hin; simpl in *; [done|].
  destruct (String.eqb_spec v command); [tauto|]. apply IH. tauto.
Qed.

(** C7: a verb absent from the registry parses to an [UnknownCommand]
    carrying the verb and the arguments, with no error. *)
Theorem ParseCommand_unknown_verb (up : string -> string) (ch : string -> bool)
    (line verb : string) (args : list string) :
  parseLine up line = Ok (verb, args) ->
  ~ In verb (map fst (parseCommandFuncs ch)) ->
  ParseCommand up ch line = Ok (UnknownCommand verb args).
Proof.
  intros Hp Hin. unfold ParseCommand. rewrite Hp. simpl.
  unfold dispatch. rewrite lookupFunc_absent by done. done.
Qed.

Lemma ParseCommand_unknown_verb_witness :
  ParseCommand (fun s => s) (fun _ => false) "FROB a b" = Ok (UnknownCommand "FROB" ["a"; "b"]).
Proof.
  apply ParseCommand_unknown_verb; [reflexivity|].
  simpl. intros H. intuition discriminate.
Defined.

(** C8: a [USER] mode token that is not a numeral leaves the mode at 0
    and the other fields verbatim; the command does not fail. *)
Theorem NewUserMsgCommand_lenient_mode (user m unused realname : string) :
  ParseUint8 m = None ->
  NewUserMsgCommand [user; m; unused; realname] = Ok (UserMsgCommand user 0 unused realname).
Proof. intros H. unfold NewUserMsgCommand. simpl. rewrite H. done. Qed.

Lemma NewUserMsgCommand_lenient_mode_witness :
  ParseUint8 "notanumber" = None /\
  NewUserMsgCommand ["alice"; "notanumber"; "*"; "Alice Example"]
    = Ok (UserMsgCommand "alice" 0 "*" "Alice Example").
Proof.
  split; [reflexivity|]. apply NewUserMsgCommand_lenient_mode. reflexivity.
Defined.

(** C3 (counterexample): [MODE someuser +iw-o] does not decode to
    [+i +w -o]. *)
Lemma user_mode_mid_token_sign_counter :
  NewUserModeCommand ["someuser"; "+iw-o"]
  <> Ok (ModeCommand "someuser"
           [mkModeChange 105 true; mkModeChange 119 true; mkModeChange 111 false]).
Proof. vm_compute. discriminate. Qed.

(** C3 (amended): only the first character of a flag-token is read as a
    sign; [MODE someuser +iw-o] decodes to [+i +w +- +o], the later [-]
    being emitted as a flag under the token's leading [+]. *)
Theorem user_mode_mid_token_sign_is_flag :
  NewUserModeCommand ["someuser"; "+iw-o"]
  = Ok (ModeCommand "someuser"
          [mkModeChange 105 true; mkModeChange 119 true;
           mkModeChange 45 true; mkModeChange 111 true]).
Proof. vm_compute. reflexivity. Qed.

(** C5 (failing input): the flag-token [\xA9] does not start with a sign,
    yet [ParseCommand] panics rather than returning [ErrParseCommand]: the
    changes slice is sized from the rune count of the joined tokens, in
    which C3 A9 is one rune, so the first token overruns it. *)
Theorem ParseCommand_mode_split_rune_panics (up : string -> string) (ch : string -> bool) :
  ch "nick" = false -> ParseCommand up ch modeLineSplitRune = Panic.
Proof. intros H. vm_compute. rewrite H. vm_compute. reflexivity. Qed.

(** The witness of the C5 theorem. *)
Lemma ParseCommand_mode_split_rune_panics_witness :
  (fun _ : string => false) "nick" = false /\
  ParseCommand (fun s => s) (fun _ => false) modeLineSplitRune = Panic.
Proof.
  split; [reflexivity|]. apply ParseCommand_mode_split_rune_panics. reflexivity.
Defined.

(* ------------------------------------------------------------------ *)
(** ** Further properties of the parser *)

Lemma length_lineWithRest (toks : list string) (r : string) :
  Forall (fun tok => isMiddle tok = true) toks ->
  2 * length toks + String.length r <= String.length (lineWithRest toks r).
Proof.
  induction toks as [|tok toks IH]; intros Hm; simpl; [lia|].
  inversion Hm as [|? ? Ht Hr]; subst. specialize (IH Hr).
  rewrite length_append. simpl.
  destruct tok; [done|]. simpl. lia.
Qed.

Lemma parseArgs_lineWithRest (toks : list string) (r : string) (f : nat) :
  Forall (fun tok => isMiddle tok = true) toks ->
  parseArgs (length toks + f) (lineWithRest toks r) = toks ++ parseArgs f r.
Proof.
  induction toks as [|tok toks IH]; intros Hm; simpl; [done|].
  inversion Hm as [|? ? Htok Hrest]; subst.
  rewrite parseArg_middle by done.
  assert (String.eqb tok EmptyString = false) as ->.
  { destruct tok; [|done]. done. }
  f_equal. by apply IH.
Qed.

(** X1: A line that begins with a space peels an empty first argument, so
    [parseLine] finds no verb and [ParseCommand] panics on [args[0]]. *)
Theorem ParseCommand_leading_space_panics (up : string -> string) (ch : string -> bool)
    (rest : string) :
  ParseCommand up ch (String " " rest) = Panic.
Proof. reflexivity. Qed.

(** X2: Two spaces in a row end the tokenizer: after the verb and the middle
    arguments before a doubled space, the rest of the line is dropped. *)
Theorem parseLine_double_space_truncates (up : string -> string) (verb : string)
    (mids : list string) (rest : string) :
  Forall (fun tok => isMiddle tok = true) (verb :: mids) ->
  parseLine up (lineWithRest (verb :: mids) (String " " rest)) = Ok (ToUpper up verb, mids).
Proof.
  intros Hm. unfold parseLine.
  pose proof (length_lineWithRest (verb :: mids) (String " " rest) Hm) as Hl.
  set (line := lineWithRest (verb :: mids) (String " " rest)) in *.
  replace (S (String.length line)) with (length (verb :: mids) + (S (String.length line - length (verb :: mids))))
    by (simpl in Hl |- *; lia).
  unfold line. rewrite parseArgs_lineWithRest by done.
  simpl. rewrite app_nil_r. done.
Qed.

Lemma parseLine_double_space_truncates_witness :
  Forall (fun tok => isMiddle tok = true) ["PRIVMSG"; "#room"] /\
  parseLine (fun s => s) "PRIVMSG #room  hello" = Ok ("PRIVMSG", ["#room"]).
Proof.
  split; [repeat constructor|].
  apply (parseLine_double_space_truncates (fun s => s) "PRIVMSG" ["#room"] "hello").
  repeat constructor.
Defined.

Lemma SplitN2_cases (s : string) :
  (SplitN2 s = (s, None) /\ sepFree " " s = true) \/
  exists a rest, SplitN2 s = (a, Some rest) /\ s = a +:+ String " " rest /\ sepFree " " a = true.
Proof.
  induction s as [|c s IH]; simpl; [by left|].
  unfold sepFree in *. simpl.
  destruct (Ascii.eqb_spec c " ") as [->|Hc].
  - right. exists EmptyString, s. done.
  - destruct IH as [[-> Hs]|(a & rest & -> & -> & Ha)].
    + left. rewrite Hs. split; [done|]. destruct (Ascii.eqb c " "); done.
    + right. exists (String c a), rest. rewrite append_cons. simpl. rewrite Ha.
      destruct (Ascii.eqb c " ") eqn:E; [apply Ascii.eqb_eq in E; done|done].
Qed.

Lemma parseArg_shape (line arg rest : string) :
  parseArg line = (arg, rest) -> arg <> EmptyString ->
  String.length rest < String.length line /\ (rest = EmptyString \/ isMiddle arg = true).
Proof.
  unfold parseArg. intros H Ha.
  destruct (String.eqb_spec line EmptyString) as [->|Hne].
  { injection H as <- <-. done. }
  destruct line as [|c l]; [done|].
  destruct (HasPrefixColon (String c l)) eqn:Hc.
  { injection H as <- <-. simpl. split; [lia|by left]. }
  destruct (SplitN2_cases (String c l)) as [[E _]|(a & r & E & Eline & Ha')];
    rewrite E in H; injection H as <- <-.
  - simpl. split; [lia|by left].
  - split.
    + rewrite Eline, length_append. simpl. lia.
    + right. unfold isMiddle. unfold sepFree in Ha'. rewrite Ha'.
      destruct a as [|ca a]; [done|]. rewrite append_cons in Eline.
      injection Eline as -> _. simpl in Hc |- *. rewrite Hc. done.
Qed.

(** X4: Each round of the [parseLine] loop that yields an argument leaves a
    strictly shorter remainder, so the loop ends. *)
Theorem parseArg_progress (line arg rest : string) :
  parseArg line = (arg, rest) -> arg <> EmptyString ->
  String.length rest < String.length line.
Proof. intros H Ha. apply (parseArg_shape line arg rest H Ha). Qed.

Lemma parseArg_progress_witness :
  parseArg "PING a b" = ("PING", "a b") /\ "PING" <> EmptyString /\
  String.length "a b" < String.length "PING a b".
Proof.
  split; [reflexivity|]. split; [discriminate|].
  apply (parseArg_progress "PING a b" "PING" "a b"); [reflexivity|discriminate].
Defined.

Lemma parseArgs_shape (f : nat) (s : string) :
  Forall (fun a => a <> EmptyString) (parseArgs f s) /\
  Forall (fun a => isMiddle a = true) (removelast (parseArgs f s)).
Proof.
  revert s; induction f as [|f IH]; intros s; simpl; [done|].
  destruct (parseArg s) as [arg rest] eqn:E.
  destruct (String.eqb_spec arg EmptyString) as [_|Ha]; [done|].
  destruct (IH rest) as [H1 H2].
  split; [by constructor|].
  destruct (parseArgs f rest) as [|x l] eqn:El; [done|].
  change (removelast (arg :: x :: l)) with (arg :: removelast (x :: l)).
  constructor; [|done].
  destruct (parseArg_shape s arg rest E Ha) as [_ [->|Hm]]; [|done].
  rewrite parseArgs_empty in El. done.
Qed.

Lemma removelast_tl {A} (P : A -> Prop) (l : list A) :
  Forall P (removelast l) -> Forall P (removelast (tl l)).
Proof.
  destruct l as [|x [|y l]]; simpl; try done.
  intros H. inversion H; subst. done.
Qed.

(** X3: Every argument [parseLine] returns is non-empty, and every argument
    but the last is a middle parameter: no space and no leading colon. *)
Theorem parseLine_args_shape (up : string -> string) (line verb : string) (args : list string) :
  parseLine up line = Ok (verb, args) ->
  Forall (fun a => a <> EmptyString) args /\ Forall (fun a => isMiddle a = true) (removelast args).
Proof.
  unfold parseLine. intros H.
  destruct (parseArgs_shape (S (String.length line)) line) as [H1 H2].
  destruct (parseArgs (S (String.length line)) line) as [|a0 l] eqn:E; [done|].
  simpl in H. injection H as _ <-.
  split; [by inversion H1|]. by apply (removelast_tl _ (a0 :: l)).
Qed.

Lemma parseLine_args_shape_witness :
  parseLine (fun s => s) "PRIVMSG #room :hello there" = Ok ("PRIVMSG", ["#room"; "hello there"]) /\
  Forall (fun a => a <> EmptyString) ["#room"; "hello there"] /\
  Forall (fun a => isMiddle a = true) (removelast ["#room"; "hello there"]).
Proof.
  assert (H : parseLine (fun s => s) "PRIVMSG #room :hello there"
              = Ok ("PRIVMSG", ["#room"; "hello there"])) by reflexivity.
  split; [exact H|]. exact (parseLine_args_shape _ _ _ _ H).
Defined.



Lemma assignKeys_no_err (keys : list string) (i : nat) (ks : list string) (e : error) :
  assignKeys keys i ks <> Err e.
Proof.
  revert keys i; induction ks as [|k ks IH]; intros keys i; simpl; [discriminate|].
  unfold index_set. destruct (Nat.ltb i (length keys)); simpl; [apply IH|discriminate].
Qed.

Lemma fillChannels_no_err (m : gmap string string) (i : nat) (cs keys : list string) (e : error) :
  fillChannels m i cs keys <> Err e.
Proof.
  revert m i; induction cs as [|c cs IH]; intros m i; simpl; [discriminate|].
  unfold index_get. destruct (keys !! i); simpl; [apply IH|discriminate].
Qed.

Lemma emitModes_no_err (changes : list ModeChange) (index : nat) (add : bool) (ms : list Z) (e : error) :
  emitModes changes index add ms <> Err e.
Proof.
  revert changes index; induction ms as [|m ms IH]; intros changes index; simpl; [discriminate|].
  unfold index_set. destruct (Nat.ltb index (length changes)); simpl; [apply IH|discriminate].
Qed.

Lemma modeLoop_err (changes : list ModeChange) (index : nat) (flags : list string) (e : error) :
  modeLoop changes index flags = Err e -> e = ErrParseCommand.
Proof.
  revert changes index; induction flags as [|arg flags IH]; intros changes index; simpl;
    [discriminate|].
  destruct (andb _ _); [congruence|].
  destruct (emitModes _ _ _ _) as [st|e'|] eqn:E; simpl; [apply IH| |discriminate].
  intros [= ->]. by apply emitModes_no_err in E.
Qed.

Lemma NewJoinCommand_err (args : list string) (e : error) :
  NewJoinCommand args = Err e -> e = NotEnoughArgsError /\ args = [].
Proof.
  unfold NewJoinCommand. destruct args as [|a0 rest]; simpl; [by intros [= ->]|].
  destruct (String.eqb a0 "0"); [discriminate|].
  destruct rest as [|a1 rest]; simpl.
  - destruct (fillChannels _ _ _ _) eqn:E; simpl; try discriminate.
    intros [= ->]. by apply fillChannels_no_err in E.
  - destruct (assignKeys _ _ _) eqn:E; simpl; try discriminate.
    + destruct (fillChannels _ _ _ _) eqn:E'; simpl; try discriminate.
      intros [= ->]. by apply fillChannels_no_err in E'.
    + intros [= ->]. by apply assignKeys_no_err in E.
Qed.

Lemma NewUserModeCommand_err (args : list string) (e : error) :
  NewUserModeCommand args = Err e -> e = ErrParseCommand.
Proof.
  unfold NewUserModeCommand. destruct args as [|a0 rest]; simpl; [discriminate|].
  destruct (Z.ltb _ _); [discriminate|].
  destruct (modeLoop _ _ _) eqn:E; simpl; try discriminate.
  intros [= ->]. by apply modeLoop_err in E.
Qed.

Lemma NewModeCommand_err (ch : string -> bool) (args : list string) (e : error) :
  NewModeCommand ch args = Err e -> (e = NotEnoughArgsError /\ args = []) \/ e = ErrParseCommand.
Proof.
  unfold NewModeCommand. destruct args as [|a0 rest]; simpl; [intros [= ->]; by left|].
  destruct (ch a0); [discriminate|]. intros H. right. by apply NewUserModeCommand_err in H.
Qed.

Lemma lookupFunc_in (command : string) (fs : list (string * (list string -> result Command)))
    (f : list string -> result Command) :
  lookupFunc command fs = Some f -> In (command, f) fs.
Proof.
  induction fs as [|[v g] fs IH]; simpl; [discriminate|].
  destruct (String.eqb_spec v command) as [->|]; [intros [= ->]; by left|].
  intros H. right. by apply IH.
Qed.

Lemma parseLine_cases (up : string -> string) (line : string) :
  parseLine up line = Panic \/ exists verb args, parseLine up line = Ok (verb, args).
Proof.
  unfold parseLine. destruct (parseArgs _ _); simpl; [by left|]. right. eauto.
Qed.

(** X6: [ParseCommand] panics only when [parseLine] panics (no verb on the
    line) or when the verb is [JOIN] or [MODE]; every other constructor
    of the registry, and the unknown-verb path, never panics. *)
Theorem ParseCommand_panic_sources (up : string -> string) (ch : string -> bool) (line : string) :
  ParseCommand up ch line = Panic ->
  parseLine up line = Panic \/
  exists args, parseLine up line = Ok ("JOIN", args) \/ parseLine up line = Ok ("MODE", args).
Proof.
  unfold ParseCommand. intros H.
  destruct (parseLine_cases up line) as [E|(verb & args & E)]; [by left|].
  right. exists args. rewrite E in H |- *. simpl in H.
  unfold dispatch in H. destruct (lookupFunc verb (parseCommandFuncs ch)) as [f|] eqn:L;
    [|discriminate].
  apply lookupFunc_in in L. simpl in L.
  repeat (destruct L as [L|L]; [injection L as <- <-|]); try tauto; try (exfalso; revert H);
    [unfold NewNickCommand | unfold NewPartCommand | unfold NewPassCommand
    | unfold NewPingCommand | unfold NewPongCommand | unfold NewPrivMsgCommand
    | unfold NewQuitCommand | unfold NewTopicCommand | unfold NewUserMsgCommand
    | unfold NewWhoCommand | unfold NewWhoisCommand]; args_cases args.
Qed.

Lemma ParseCommand_panic_sources_witness :
  ParseCommand (fun s => s) (fun _ => false) "JOIN #a k1,k2" = Panic /\
  (parseLine (fun s => s) "JOIN #a k1,k2" = Panic \/
   exists args, parseLine (fun s => s) "JOIN #a k1,k2" = Ok ("JOIN", args) \/
                parseLine (fun s => s) "JOIN #a k1,k2" = Ok ("MODE", args)).
Proof.
  assert (H : ParseCommand (fun s => s) (fun _ => false) "JOIN #a k1,k2" = Panic)
    by reflexivity.
  split; [exact H|]. exact (ParseCommand_panic_sources _ _ _ H).
Defined.

(** X7: [ErrParseCommand] comes only from [MODE]: no other verb, known or
    unknown, yields it. *)
Theorem ParseCommand_parse_error_only_mode (up : string -> string) (ch : string -> bool)
    (line : string) :
  ParseCommand up ch line = Err ErrParseCommand ->
  exists args, parseLine up line = Ok ("MODE", args).
Proof.
  unfold ParseCommand. intros H.
  destruct (parseLine_cases up line) as [E|(verb & args & E)]; rewrite E in H; [discriminate|].
  exists args. simpl in H.
  unfold dispatch in H. destruct (lookupFunc verb (parseCommandFuncs ch)) as [f|] eqn:L;
    [|discriminate].
  apply lookupFunc_in in L. simpl in L.
  repeat (destruct L as [L|L]; [injection L as <- <-|]); try tauto; try done;
    try (exfalso; revert H);
    [ intros H; apply NewJoinCommand_err in H as [? _]; discriminate
    | unfold NewNickCommand | unfold NewPartCommand | unfold NewPassCommand
    | unfold NewPingCommand | unfold NewPongCommand | unfold NewPrivMsgCommand
    | unfold NewQuitCommand | unfold NewTopicCommand | unfold NewUserMsgCommand
    | unfold NewWhoCommand | unfold NewWhoisCommand]; args_cases args.
Qed.

Lemma ParseCommand_parse_error_only_mode_witness :
  ParseCommand (fun s => s) (fun _ => false) "MODE nick x" = Err ErrParseCommand /\
  exists args, parseLine (fun s => s) "MODE nick x" = Ok ("MODE", args).
Proof.
  assert (H : ParseCommand (fun s => s) (fun _ => false) "MODE nick x" = Err ErrParseCommand)
    by reflexivity.
  split; [exact H|]. exact (ParseCommand_parse_error_only_mode _ _ _ H).
Defined.

(** X8: For every registered verb except [NICK] and [USER], the constructor
    returns [NotEnoughArgsError] exactly when it gets fewer arguments than
    the minimum listed in [requiredArgs]. *)
Theorem registry_arity (ch : string -> bool) (verb : string) (f : list string -> result Command)
    (n : nat) (args : list string) :
  In (verb, f) (parseCommandFuncs ch) -> In (verb, n) requiredArgs ->
  (f args = Err NotEnoughArgsError <-> length args < n).
Proof.
  intros Hf Hn. simpl in Hn.
  repeat (destruct Hn as [Hn|Hn]; [injection Hn as <- <-|]); try done;
    simpl in Hf;
    repeat (destruct Hf as [Hf|Hf]; [injection Hf as Hf; try discriminate; subst f|]);
    try done.
  - split; [intros H; apply NewJoinCommand_err in H as [_ ->]; simpl; lia|].
    destruct args; simpl; [done|lia].
  - split; [intros H; apply NewModeCommand_err in H as [[_ ->]|]; [simpl; lia|done]|].
    destruct args; simpl; [done|lia].
  - unfold NewPartCommand. args_cases args; split; intros; (discriminate || lia || done).
  - unfold NewPassCommand. args_cases args; split; intros; (discriminate || lia || done).
  - unfold NewPingCommand. args_cases args; split; intros; (discriminate || lia || done).
  - unfold NewPongCommand. args_cases args; split; intros; (discriminate || lia || done).
  - unfold NewPrivMsgCommand. args_cases args; split; intros; (discriminate || lia || done).
  - unfold NewQuitCommand. args_cases args; split; intros; (discriminate || lia || done).
  - unfold NewTopicCommand. args_cases args; split; intros; (discriminate || lia || done).
  - unfold NewWhoCommand. args_cases args; split; intros; (discriminate || lia || done).
  - unfold NewWhoisCommand. args_cases args; split; intros; (discriminate || lia || done).
Qed.

Lemma registry_arity_witness :
  In ("PRIVMSG", NewPrivMsgCommand) (parseCommandFuncs (fun _ => false)) /\
  In ("PRIVMSG", 2) requiredArgs /\
  (NewPrivMsgCommand ["#room"] = Err NotEnoughArgsError <-> length ["#room"] < 2).
Proof.
  assert (H1 : In ("PRIVMSG", NewPrivMsgCommand) (parseCommandFuncs (fun _ => false)))
    by (simpl; tauto).
  assert (H2 : In ("PRIVMSG", 2) requiredArgs) by (simpl; tauto).
  split; [exact H1|]. split; [exact H2|].
  exact (registry_arity _ _ _ _ ["#room"] H1 H2).
Defined.



Lemma fillChannels_dom (m m' : gmap string string) (i : nat) (cs keys : list string) (c : string) :
  fillChannels m i cs keys = Ok m' -> (is_Some (m' !! c) <-> is_Some (m !! c) \/ In c cs).
Proof.
  revert m i; induction cs as [|c0 cs IH]; intros m i H; simpl in *.
  - injection H as <-. tauto.
  - unfold index_get in H. destruct (keys !! i) as [k|]; [|done]. simpl in H.
    rewrite (IH _ _ H). destruct (String.eq_dec c0 c) as [->|Hne].
    + rewrite lookup_insert_eq. split; [tauto|]. intros _. left. eauto.
    + rewrite lookup_insert_ne by done. tauto.
Qed.


(** X10: A successful [JOIN] either is the [0] form (zero flag set, no
    channels) or has the zero flag clear and a map whose keys are exactly
    the names of its comma-separated channel list. *)
Theorem NewJoinCommand_result (args : list string) (channels : gmap string string) (zero : bool) :
  NewJoinCommand args = Ok (JoinCommand channels zero) ->
  (zero = true /\ channels = ∅ /\ head args = Some "0") \/
  (zero = false /\ head args <> Some "0" /\
   forall c, is_Some (channels !! c) <-> In c (joinChannelList args)).
Proof.
  unfold NewJoinCommand. intros H.
  destruct args as [|a0 rest]; simpl in H; [discriminate|].
  destruct (String.eqb_spec a0 "0") as [->|Hne].
  { injection H as <- <-. left. done. }
  right.
  assert (Hd : forall m, fillChannels ∅ 0 (Split "," a0)
            (repeat EmptyString (length (Split "," a0))) = Ok m \/
            (exists keys, fillChannels ∅ 0 (Split "," a0) keys = Ok m) ->
            forall c, is_Some (m !! c) <-> In c (Split "," a0)).
  { intros m Hm c. destruct Hm as [E|[keys E]];
      rewrite (fillChannels_dom _ _ _ _ _ c E), lookup_empty;
      (split; [intros [[? Hx]|Hx]; [discriminate|exact Hx] | intros Hx; right; exact Hx]). }
  destruct rest as [|a1 rest]; simpl in H.
  - destruct (fillChannels _ _ _ _) as [m| |] eqn:E; simpl in H; try discriminate.
    injection H as <- <-. split; [done|]. split; [simpl; intros [= Hh]; done|]. simpl.
    apply Hd. by left.
  - destruct (assignKeys _ _ _) as [keys| |]; simpl in H; try discriminate.
    destruct (fillChannels ∅ 0 (Split "," a0) keys) as [m| |] eqn:E; simpl in H; try discriminate.
    injection H as <- <-. split; [done|]. split; [simpl; intros [= Hh]; done|]. simpl.
    apply Hd. right. eauto.
Qed.

Lemma NewJoinCommand_result_witness :
  NewJoinCommand ["#a,#b"; "k1"] = Ok (JoinCommand (<["#b" := EmptyString]> (<["#a" := "k1"]> ∅)) false) /\
  ((false = true /\ (<["#b" := EmptyString]> (<["#a" := "k1"]> ∅) : gmap string string) = ∅ /\
    head ["#a,#b"; "k1"] = Some "0") \/
   (false = false /\ head ["#a,#b"; "k1"] <> Some "0" /\
    forall c, is_Some ((<["#b" := EmptyString]> (<["#a" := "k1"]> ∅) : gmap string string) !! c)
              <-> In c (joinChannelList ["#a,#b"; "k1"]))).
Proof.
  assert (H : NewJoinCommand ["#a,#b"; "k1"]
              = Ok (JoinCommand (<["#b" := EmptyString]> (<["#a" := "k1"]> ∅)) false))
    by (vm_compute; reflexivity).
  split; [exact H|]. exact (NewJoinCommand_result _ _ _ H).
Defined.

Lemma joinWith_cons_head (sep c : ascii) (p : string) (ps : list string) :
  joinWith sep (String c p :: ps) = String c (joinWith sep (p :: ps)).
Proof. destruct ps; simpl; [done|]. by rewrite append_cons. Qed.

Lemma Split_spec (sep : ascii) (s : string) :
  joinWith sep (Split sep s) = s /\ Forall (fun p => sepFree sep p = true) (Split sep s) /\
  Split sep s <> [].
Proof.
  induction s as [|c s IH]; simpl.
  - split; [done|]. split; [repeat constructor|done].
  - destruct IH as (Hj & Hf & Hn).
    destruct (Split sep s) as [|p ps]; [done|].
    destruct (Ascii.eqb_spec c sep) as [->|Hc].
    + split.
      { change (joinWith sep (EmptyString :: p :: ps))
          with (EmptyString +:+ String sep (joinWith sep (p :: ps))).
        by rewrite append_empty, Hj. }
      split; [by constructor|done].
    + split; [by rewrite joinWith_cons_head, Hj|].
      inversion Hf as [|? ? Hp Hps]; subst.
      split; [|done]. constructor; [|done].
      unfold sepFree in *. simpl. rewrite Hp.
      destruct (Ascii.eqb_spec c sep); done.
Qed.

(** X11: The channel list of a [PART] is non-empty, holds no comma, and joined
    with commas gives back the first argument; the message is the second
    argument, or empty. *)
Theorem NewPartCommand_channels (args : list string) (channels : list string) (message : string) :
  NewPartCommand args = Ok (PartCommand channels message) ->
  channels <> [] /\ Forall (fun p => sepFree "," p = true) channels /\
  head args = Some (joinWith "," channels) /\ message = default EmptyString (args !! 1).
Proof.
  unfold NewPartCommand. intros H.
  destruct args as [|a0 [|a1 rest]]; simpl in H; try discriminate;
    injection H as <- <-; destruct (Split_spec "," a0) as (Hj & Hf & Hn);
    (split; [done|]); (split; [done|]); simpl; by rewrite Hj.
Qed.

Lemma NewPartCommand_channels_witness :
  NewPartCommand ["#a,#b"; "bye"] = Ok (PartCommand ["#a"; "#b"] "bye") /\
  ["#a"; "#b"] <> [] /\ Forall (fun p => sepFree "," p = true) ["#a"; "#b"] /\
  head ["#a,#b"; "bye"] = Some (joinWith "," ["#a"; "#b"]) /\
  "bye" = default EmptyString (["#a,#b"; "bye"] !! 1).
Proof.
  assert (H : NewPartCommand ["#a,#b"; "bye"] = Ok (PartCommand ["#a"; "#b"] "bye"))
    by reflexivity.
  split; [exact H|]. exact (NewPartCommand_channels _ _ _ H).
Defined.



Lemma fold_digits_mono (l : list ascii) (n : Z) :
  forallb isDigit l = true -> (0 <= n)%Z ->
  (n <= fold_left (fun n c => n * 10 + (byte_of c - 48))%Z l n)%Z.
Proof.
  revert n; induction l as [|c l IH]; intros n Hl Hn; simpl in *; [lia|].
  apply andb_true_iff in Hl as [Hc Hl]. unfold isDigit in Hc.
  apply andb_true_iff in Hc as [H1 H2]. apply Z.leb_le in H1, H2.
  etransitivity; [|apply IH; [done|lia]]. lia.
Qed.

Lemma parseUint8Loop_spec (n : Z) (l : list ascii) :
  (0 <= n <= 255)%Z ->
  parseUint8Loop n l =
  let v := fold_left (fun n c => n * 10 + (byte_of c - 48))%Z l n in
  if forallb isDigit l && Z.leb v 255 then Some v else None.
Proof.
  revert n; induction l as [|c l IH]; intros n Hn; simpl.
  - destruct (Z.leb_spec n 255); [done|lia].
  - change (andb (Z.leb 48 (byte_of c)) (Z.leb (byte_of c) 57)) with (isDigit c).
    destruct (isDigit c) eqn:Hc; simpl; [|done].
    unfold isDigit in Hc. apply andb_true_iff in Hc as [H1 H2]. apply Z.leb_le in H1, H2.
    destruct (Z.ltb_spec 255 (n * 10 + (byte_of c - 48))).
    + destruct (forallb isDigit l) eqn:Hl; simpl; [|done].
      pose proof (fold_digits_mono l (n * 10 + (byte_of c - 48)) Hl ltac:(lia)).
      destruct (Z.leb_spec (fold_left (fun n c => n * 10 + (byte_of c - 48))%Z l
                              (n * 10 + (byte_of c - 48))%Z) 255); [lia|done].
    + apply IH. lia.
Qed.

Lemma ParseUint8_spec (s : string) :
  ParseUint8 s = if decimalUint8 s then Some (digitsValue s) else None.
Proof.
  unfold ParseUint8, decimalUint8, digitsValue.
  destruct (String.eqb s EmptyString); simpl; [done|].
  rewrite parseUint8Loop_spec by lia. done.
Qed.

(** X13: The mode of [USER] is the decimal value of its second argument when
    that is a non-empty string of digits whose value is at most 255, and
    0 otherwise. *)
Theorem NewUserMsgCommand_mode_value (user m unused realname : string) :
  NewUserMsgCommand [user; m; unused; realname]
  = Ok (UserMsgCommand user (if decimalUint8 m then digitsValue m else 0%Z) unused realname).
Proof.
  unfold NewUserMsgCommand. simpl. rewrite ParseUint8_spec.
  destruct (decimalUint8 m); done.
Qed.

Lemma stringToRunes_asciiString (s : string) :
  asciiString s = true -> stringToRunes s = map byte_of (list_ascii_of_string s).
Proof.
  induction s as [|c s IH]; simpl; [done|].
  unfold asciiString. simpl. intros H. apply andb_true_iff in H as [Hc Hs].
  unfold is_ascii_byte in Hc. apply Z.ltb_lt in Hc.
  rewrite stringToRunes_ascii by done. f_equal. by apply IH.
Qed.

Lemma asciiString_append (s t : string) :
  asciiString (s +:+ t) = asciiString s && asciiString t.
Proof.
  induction s as [|c s IH]; [done|]. rewrite append_cons. unfold asciiString in *. simpl.
  rewrite IH. by rewrite andb_assoc.
Qed.

Lemma length_list_ascii (s : string) : length (list_ascii_of_string s) = String.length s.
Proof. induction s; simpl; auto. Qed.

Lemma byte_of_inj (c d : ascii) : byte_of c = byte_of d -> c = d.
Proof.
  unfold byte_of. intros H. apply Nat2Z.inj in H.
  rewrite <- (ascii_nat_embedding c), <- (ascii_nat_embedding d). by rewrite H.
Qed.

Lemma sign_test (c : ascii) :
  Z.eqb (byte_of c) plusRune = Ascii.eqb c "+" /\ Z.eqb (byte_of c) minusRune = Ascii.eqb c "-".
Proof.
  split.
  - destruct (Ascii.eqb_spec c "+") as [->|Hc]; [reflexivity|].
    destruct (Z.eqb_spec (byte_of c) plusRune) as [H|]; [|done].
    change plusRune with (byte_of "+") in H. apply byte_of_inj in H. done.
  - destruct (Ascii.eqb_spec c "-") as [->|Hc]; [reflexivity|].
    destruct (Z.eqb_spec (byte_of c) minusRune) as [H|]; [|done].
    change minusRune with (byte_of "-") in H. apply byte_of_inj in H. done.
Qed.

(** The user-mode loop over non-empty ASCII flag-tokens, given the slots
    their bytes after the sign ask for. *)
Lemma modeLoop_ascii (pre : list ModeChange) (flags : list string) :
  Forall (fun tok => tok <> EmptyString /\ asciiString tok = true) flags ->
  modeLoop (pre ++ repeat zeroModeChange (sum_list (map (fun tok => String.length tok - 1) flags)))
    (length pre) flags
  = if forallb startsWithSign flags then Ok (pre ++ concat (map asciiTokenChanges flags))
    else Err ErrParseCommand.
Proof.
  revert pre; induction flags as [|tok flags IH]; intros pre Hf.
  { simpl. by rewrite !app_nil_r. }
  inversion Hf as [|? ? [Hne Ha] Hrest]; subst.
  destruct tok as [|c r]; [done|].
  change (forallb startsWithSign (String c r :: flags))
    with ((Ascii.eqb c "+" || Ascii.eqb c "-") && forallb startsWithSign flags).
  change (concat (map asciiTokenChanges (String c r :: flags)))
    with (map (fun b => mkModeChange (byte_of b) (Ascii.eqb c "+")) (list_ascii_of_string r)
          ++ concat (map asciiTokenChanges flags)).
  cbn [modeLoop sum_list map String.length].
  rewrite stringToRunes_asciiString by done. cbn [list_ascii_of_string map tl].
  destruct (sign_test c) as [Hp Hm]. rewrite Hp, Hm.
  destruct (Ascii.eqb c "+") eqn:Ep, (Ascii.eqb c "-") eqn:Em; cbn [negb andb orb]; try done;
  (unfold id; rewrite Nat.sub_1_r; cbn [Nat.pred]; rewrite repeat_app;
   rewrite emitModes_fill by (rewrite repeat_length, length_map, length_list_ascii; done);
   cbn [bind fst snd]; rewrite app_assoc;
   match goal with |- context [modeLoop (?P ++ _) (length pre + length ?ms) flags] =>
     replace (length pre + length ms) with (length P) by (rewrite length_app, length_map; done) end;
   rewrite IH by done; rewrite map_map;
   destruct (forallb startsWithSign flags); [by rewrite app_assoc|done]).
Qed.

Lemma sum_runes_ascii (flags : list string) :
  Forall (fun tok => tok <> EmptyString /\ asciiString tok = true) flags ->
  (Z.of_nat (RuneCountInString (JoinEmpty flags)) - Z.of_nat (length flags))%Z
  = Z.of_nat (sum_list (map (fun tok => String.length tok - 1) flags)).
Proof.
  intros Hf.
  assert (Ha : asciiString (JoinEmpty flags) = true).
  { induction Hf as [|tok flags [_ Ht] _ IH]; [done|].
    simpl. rewrite asciiString_append, Ht, IH. done. }
  rewrite RuneCount_length, stringToRunes_asciiString, length_map, length_list_ascii by done.
  clear Ha. induction Hf as [|tok flags [Hne _] _ IH]; [done|].
  simpl. rewrite length_append.
  destruct tok as [|c r]; [done|]. simpl String.length. lia.
Qed.

(** X14: For flag-tokens that are non-empty ASCII strings, the user-mode
    decoder never panics: it fails with [ErrParseCommand] when some token
    does not start with a sign, and otherwise returns one change per byte
    after each token's sign, carrying that sign. *)
Theorem NewUserModeCommand_ascii (nickname : string) (flags : list string) :
  Forall (fun tok => tok <> EmptyString /\ asciiString tok = true) flags ->
  NewUserModeCommand (nickname :: flags)
  = if forallb startsWithSign flags
    then Ok (ModeCommand nickname (concat (map asciiTokenChanges flags)))
    else Err ErrParseCommand.
Proof.
  intros Hf. unfold NewUserModeCommand. simpl index_get. simpl bind. simpl drop.
  rewrite drop_0, (sum_runes_ascii flags Hf).
  destruct (Z.ltb_spec (Z.of_nat (sum_list (map (fun tok => String.length tok - 1) flags))) 0);
    [lia|].
  rewrite Nat2Z.id.
  pose proof (modeLoop_ascii [] flags Hf) as Hl. simpl in Hl. rewrite Hl.
  destruct (forallb startsWithSign flags); done.
Qed.

Lemma NewUserModeCommand_ascii_witness :
  Forall (fun tok => tok <> EmptyString /\ asciiString tok = true) ["+iw"; "o"] /\
  NewUserModeCommand ["nick"; "+iw"; "o"] = Err ErrParseCommand.
Proof.
  assert (Hf : Forall (fun tok => tok <> EmptyString /\ asciiString tok = true) ["+iw"; "o"])
    by (repeat constructor; discriminate).
  split; [exact Hf|]. exact (NewUserModeCommand_ascii "nick" ["+iw"; "o"] Hf).
Defined.

Lemma decodeLoop_length (f : nat) (s : string) : length (decodeLoop f s) <= String.length s.
Proof.
  revert s; induction f as [|f IH]; intros [|c r]; simpl; try lia.
  pose proof (DecodeRune_size c r) as Hs.
  destruct (DecodeRuneInString (String c r)) as [rn size]; simpl in *.
  pose proof (IH (dropBytes size (String c r))) as H. rewrite length_dropBytes in H.
  simpl in H. lia.
Qed.

(** X15: [RuneCountInString] is at most the byte length, at least 1 on a
    non-empty string, and equal to the byte length on ASCII strings. *)
Theorem RuneCountInString_bounds (s : string) :
  RuneCountInString s <= String.length s /\
  (s <> EmptyString -> 1 <= RuneCountInString s) /\
  (asciiString s = true -> RuneCountInString s = String.length s).
Proof.
  rewrite RuneCount_length. split; [apply decodeLoop_length|]. split.
  - destruct s as [|c r]; [done|]. intros _. unfold stringToRunes. simpl.
    destruct (DecodeRuneInString (String c r)). simpl. lia.
  - intros H. rewrite stringToRunes_asciiString, length_map by done. apply length_list_ascii.
Qed.

Lemma RuneCountInString_bounds_witness :
  RuneCountInString "café" <= String.length "café" /\
  ("café" <> EmptyString -> 1 <= RuneCountInString "café") /\
  (asciiString "café" = true -> RuneCountInString "café" = String.length "café").
Proof. exact (RuneCountInString_bounds "café"). Defined.

Lemma byte_of_bound (c : ascii) : (0 <= byte_of c <= 255)%Z.
Proof. unfold byte_of. pose proof (nat_ascii_bounded c). lia. Qed.

Lemma byteAt_bound (s : string) (i : nat) : (0 <= byteAt s i <= 255)%Z.
Proof. unfold byteAt. destruct (String.get i s); [apply byte_of_bound|lia]. Qed.

Lemma lor_shiftl (a b k : Z) :
  (0 <= a)%Z -> (0 <= k)%Z -> (0 <= b < 2 ^ k)%Z -> Z.lor (Z.shiftl a k) b = (a * 2 ^ k + b)%Z.
Proof.
  intros Ha Hk Hb. rewrite Z.shiftl_mul_pow2 by done.
  assert (Hl : Z.land (a * 2 ^ k) b = 0%Z).
  { apply Z.bits_inj'. intros i Hi. rewrite Z.land_spec, Z.bits_0.
    destruct (Z.lt_ge_cases i k) as [Hik|Hik].
    - rewrite Z.mul_pow2_bits_low by done. done.
    - destruct (Z.eq_dec b 0%Z) as [->|Hb0]; [by rewrite Z.bits_0, andb_false_r|].
      rewrite (Z.bits_above_log2 b i); [by rewrite andb_false_r|lia|].
      apply Z.log2_lt_pow2; [lia|]. eapply Z.lt_le_trans; [apply Hb|].
      apply Z.pow_le_mono_r; lia. }
  rewrite <- Z.lxor_lor, <- Z.add_nocarry_lxor by done. done.
Qed.

Lemma land_low (v m k base : Z) :
  m = Z.ones k -> (0 <= k)%Z -> (base <= v < base + 2 ^ k)%Z -> (base mod 2 ^ k = 0)%Z ->
  Z.land v m = (v - base)%Z.
Proof.
  intros -> Hk Hv Hb. rewrite Z.land_ones by done.
  pose proof (Z.pow_pos_nonneg 2 k ltac:(lia) Hk).
  apply Z.mod_divide in Hb as [q Hq]; [|lia].
  rewrite (Z.mod_unique v (2 ^ k) q (v - base)); [done|lia|lia].
Qed.

Lemma first_range (b : Z) (x : Z) :
  (0 <= b <= 255)%Z -> first b = x ->
  (x = as_ /\ b < 128 \/ x = xx \/ x = 2 /\ 194 <= b < 224 \/ x = 19 /\ b = 224 \/
   x = 3 /\ (225 <= b < 237 \/ 238 <= b < 240) \/ x = 35 /\ b = 237 \/
   x = 52 /\ b = 240 \/ x = 4 /\ 241 <= b < 244 \/ x = 68 /\ b = 244)%Z.
Proof.
  intros Hb <-. unfold first.
  repeat match goal with
  | |- context [if Z.ltb ?a ?c then _ else _] => destruct (Z.ltb_spec a c)
  | |- context [if Z.eqb ?a ?c then _ else _] => destruct (Z.eqb_spec a c)
  end; lia.
Qed.

(** Rewrite the UTF-8 masks of bytes in known ranges into subtractions. *)
Ltac masks :=
  repeat match goal with
  | |- context [Z.land ?v maskx] =>
      rewrite (land_low v maskx 6 128) by (reflexivity || lia || reflexivity)
  | |- context [Z.land ?v mask2] =>
      rewrite (land_low v mask2 5 192) by (reflexivity || lia || reflexivity)
  | |- context [Z.land ?v mask3] =>
      rewrite (land_low v mask3 4 224) by (reflexivity || lia || reflexivity)
  | |- context [Z.land ?v mask4] =>
      rewrite (land_low v mask4 3 240) by (reflexivity || lia || reflexivity)
  end.

(** Rewrite a shifted value or-ed with a smaller one into a sum. *)
Ltac shifts :=
  repeat match goal with
  | |- context [Z.lor (Z.shiftl ?a ?k) ?b] =>
      (rewrite (lor_shiftl a b k) by (simpl; lia)) ||
      (match b with context [Z.lor (Z.shiftl ?a' ?k') ?b'] =>
         rewrite (lor_shiftl a' b' k') by (simpl; lia) end)
  end.

(** Close the decoded-value case: a scalar value of the expected size. *)
Ltac scalar :=
  right; unfold validScalar, utf8Len; simpl Z.pow;
  repeat match goal with |- context [Z.ltb ?a ?c] => destruct (Z.ltb_spec a c) end;
  split; try (split; lia); try lia.

(** X16: [DecodeRuneInString] on a non-empty string returns either
    [RuneError] with size 1, or a Unicode scalar value (at most U+10FFFF,
    no surrogate) whose size is the length of its shortest UTF-8 encoding. *)
Theorem DecodeRuneInString_valid (c : ascii) (rest : string) :
  let '(r, size) := DecodeRuneInString (String c rest) in
  (r = RuneError /\ size = 1) \/ (validScalar r /\ size = utf8Len r).
Proof.
  pose proof (byte_of_bound c) as Hc.
  pose proof (byteAt_bound (String c rest) 1) as H1.
  pose proof (byteAt_bound (String c rest) 2) as H2.
  pose proof (byteAt_bound (String c rest) 3) as H3.
  unfold DecodeRuneInString.
  destruct (first_range (byte_of c) _ Hc eq_refl) as
    [[Hx Hb]|[Hx|[[Hx Hb]|[[Hx Hb]|[[Hx Hb]|[[Hx Hb]|[[Hx Hb]|[[Hx Hb]|[Hx Hb]]]]]]]]];
    rewrite Hx; crunch_first; cbv zeta iota beta.
  - eval_const (Z.shiftr (toInt32 (Z.shiftl as_ 31)) 31).
    rewrite Z.land_0_r, Z.lor_0_r. change (Z.lnot 0) with (-1)%Z. rewrite Z.land_m1_r.
    right. unfold validScalar, utf8Len. destruct (Z.ltb_spec (byte_of c) 128); [|lia].
    split; [lia|done].
  - eval_const (Z.shiftr (toInt32 (Z.shiftl xx 31)) 31).
    change (Z.lnot (-1)) with 0%Z. rewrite Z.land_0_r. left. done.
  - set (s1 := byteAt (String c rest) 1) in *.
    repeat match goal with |- context [if ?b then _ else _] => destruct b eqn:? end;
      try (left; done); orb_bounds; unfold locb, hicb in *; masks; shifts; scalar.
  - set (s1 := byteAt (String c rest) 1) in *.
    set (s2 := byteAt (String c rest) 2) in *.
    repeat match goal with |- context [if ?b then _ else _] => destruct b eqn:? end;
      try (left; done); orb_bounds; unfold locb, hicb in *; masks; shifts; scalar.
  - set (s1 := byteAt (String c rest) 1) in *.
    set (s2 := byteAt (String c rest) 2) in *.
    repeat match goal with |- context [if ?b then _ else _] => destruct b eqn:? end;
      try (left; done); orb_bounds; unfold locb, hicb in *; masks; shifts; scalar.
  - set (s1 := byteAt (String c rest) 1) in *.
    set (s2 := byteAt (String c rest) 2) in *.
    repeat match goal with |- context [if ?b then _ else _] => destruct b eqn:? end;
      try (left; done); orb_bounds; unfold locb, hicb in *; masks; shifts; scalar.
  - set (s1 := byteAt (String c rest) 1) in *.
    set (s2 := byteAt (String c rest) 2) in *.
    set (s3 := byteAt (String c rest) 3) in *.
    repeat match goal with |- context [if ?b then _ else _] => destruct b eqn:? end;
      try (left; done); orb_bounds; unfold locb, hicb in *; masks; shifts; scalar.
  - set (s1 := byteAt (String c rest) 1) in *.
    set (s2 := byteAt (String c rest) 2) in *.
    set (s3 := byteAt (String c rest) 3) in *.
    repeat match goal with |- context [if ?b then _ else _] => destruct b eqn:? end;
      try (left; done); orb_bounds; unfold locb, hicb in *; masks; shifts; scalar.
  - set (s1 := byteAt (String c rest) 1) in *.
    set (s2 := byteAt (String c rest) 2) in *.
    set (s3 := byteAt (String c rest) 3) in *.
    repeat match goal with |- context [if ?b then _ else _] => destruct b eqn:? end;
      try (left; done); orb_bounds; unfold locb, hicb in *; masks; shifts; scalar.
Qed.

(** X17: Every registered constructor except [NICK], [USER] and [MODE] ignores
    the arguments after the second one. *)
Theorem registry_ignores_extra_args (ch : string -> bool) (verb : string)
    (f : list string -> result Command) (a b : string) (rest : list string) :
  In (verb, f) (parseCommandFuncs ch) -> verb <> "NICK" -> verb <> "USER" -> verb <> "MODE" ->
  f (a :: b :: rest) = f [a; b].
Proof.
  intros Hf Hn Hu Hm. simpl in Hf.
  repeat (destruct Hf as [Hf|Hf]; [injection Hf as <- <-|]); try done; reflexivity.
Qed.

Lemma registry_ignores_extra_args_witness :
  In ("PRIVMSG", NewPrivMsgCommand) (parseCommandFuncs (fun _ => false)) /\
  NewPrivMsgCommand ["#room"; "hi"; "extra"] = NewPrivMsgCommand ["#room"; "hi"].
Proof.
  assert (H : In ("PRIVMSG", NewPrivMsgCommand) (parseCommandFuncs (fun _ => false)))
    by (simpl; tauto).
  split; [exact H|].
  apply (registry_ignores_extra_args _ _ _ _ _ _ H); discriminate.
Defined.
